(** * Bounded string duplication: [strndup] from [util/strext.h]

    The header [samples/util/include/util/strext.h] supplies a fallback
    [strndup] for MSVC toolchains that predate C23:

<<
    static inline char *strndup(const char *const str, const size_t maxlen) {
        const size_t len = strnlen(str, maxlen);

        char *const ret = malloc(len + 1);
        if (ret) {
            memcpy(ret, str, len);
            ret[len] = '\0';
        }

        return ret;
    }
>>

    The function is embedded in a small state-and-failure monad over a
    byte-addressed memory.  A run either yields a value and a new machine, or
    [None] when it steps outside defined behaviour (an access to a cell that
    is not allocated, a [memcpy] over overlapping regions).  Every load,
    store and allocation request is appended to a trace so that statements
    about what is read, written and requested can be made.  *)

From Stdlib Require Import ZArith List Lia.
From stdpp Require Import base option list gmap fin_maps.
From Stdlib Require Import Strings.Byte.

Local Open Scope Z_scope.

(** ** Machine words *)

(** [size_t] on the x64 MSVC target is an unsigned 64-bit integer. *)
Definition SIZE_BITS : Z := 64.
Definition SIZE_MODULUS : Z := 2 ^ SIZE_BITS.
Definition SIZE_MAX : Z := SIZE_MODULUS - 1.

Definition is_size_t (n : Z) : Prop := 0 <= n <= SIZE_MAX.

(** Unsigned addition on [size_t] wraps around. *)
Definition size_add (a b : Z) : Z := (a + b) mod SIZE_MODULUS.

Global Instance byte_eq_dec : EqDecision byte := Byte.byte_eq_dec.

(** The null pointer and the terminator ['\0']. *)
Definition NULL : Z := 0.
Definition NUL : byte := x00.

(** ** Memory, allocator and machine state *)

(** The allocated cells, by address. *)
Abbreviation heap := (gmap Z byte).

(** What the allocator answers to [malloc(n)] in a given heap: [None] when
    it has no memory to give, or the address of a block together with the
    indeterminate bytes the block holds initially. *)
Definition allocator : Type := heap -> Z -> option (Z * list byte).

Inductive event : Type :=
  | EvRead (a : Z)
  | EvWrite (a : Z) (b : byte)
  | EvMalloc (n : Z) (p : Z).

Record machine : Type := Machine {
  mem : heap;
  alloc : allocator;
  trace : list event
}.

Definition log (e : event) (m : machine) : machine :=
  {| mem := mem m; alloc := alloc m; trace := trace m ++ [e] |}.

Definition set_mem (h : heap) (m : machine) : machine :=
  {| mem := h; alloc := alloc m; trace := trace m |}.

(** ** The monad of C computations *)

Definition C (A : Type) : Type := machine -> option (A * machine).

Definition cret {A} (x : A) : C A := fun m => Some (x, m).

Definition cbind {A B} (c : C A) (k : A -> C B) : C B :=
  fun m => match c m with
           | Some (x, m') => k x m'
           | None => None
           end.

Definition undefined {A} : C A := fun _ => None.

Global Instance C_ret : MRet C := @cret.
Global Instance C_bind : MBind C := fun A B k c => cbind c k.

(** ** Memory accesses *)

(** [*p] as an rvalue. *)
Definition load (a : Z) : C byte :=
  fun m => match mem m !! a with
           | Some b => Some (b, log (EvRead a) m)
           | None => None
           end.

(** [*p = b]. *)
Definition store (a : Z) (b : byte) : C unit :=
  fun m => match mem m !! a with
           | Some _ => Some (tt, log (EvWrite a b) (set_mem (<[a:=b]> (mem m)) m))
           | None => None
           end.

(** Lay the bytes [bs] out from address [p] on. *)
Fixpoint write_block (p : Z) (bs : list byte) (h : heap) : heap :=
  match bs with
  | [] => h
  | b :: bs' => <[p:=b]> (write_block (p + 1) bs' h)
  end.

(** ** The C library primitives the header relies on *)

(** Modelled from the spec: [malloc] of the C library, "allocate N bytes,
    return null on failure".  The block the allocator hands out becomes
    part of the heap with its indeterminate initial bytes. *)
Definition malloc (n : Z) : C Z :=
  fun m => match alloc m (mem m) n with
           | Some (p, junk) =>
               Some (p, log (EvMalloc n p) (set_mem (write_block p junk (mem m)) m))
           | None => Some (NULL, log (EvMalloc n NULL) m)
           end.

(** Modelled from the spec: [strnlen] of the C library, "return the number
    of bytes before the first zero terminator, or the bound, whichever is
    smaller".  The loop is [for (i = 0; i < maxlen && s[i]; i++)], with one
    unit of fuel per admissible iteration. *)
Fixpoint strnlen_loop (fuel : nat) (s : Z) (i : Z) : C Z :=
  match fuel with
  | O => cret i
  | S fuel' =>
      b ← load (s + i);
      if decide (b = NUL) then cret i else strnlen_loop fuel' s (i + 1)
  end.

Definition strnlen (s : Z) (maxlen : Z) : C Z :=
  strnlen_loop (Z.to_nat maxlen) s 0.

(** Two byte ranges of length [n] share a cell. *)
Definition overlap (p q n : Z) : Prop := 0 < n ∧ p < q + n ∧ q < p + n.

Global Instance overlap_dec p q n : Decision (overlap p q n).
Proof. unfold overlap. apply _. Defined.

(** Modelled from the spec: [memcpy] of the C library, the "raw memory-copy
    primitive".  It copies [n] bytes front to back and returns [dst]; the
    two regions must not overlap. *)
Fixpoint memcpy_loop (fuel : nat) (dst src : Z) (i : Z) : C unit :=
  match fuel with
  | O => cret tt
  | S fuel' =>
      b ← load (src + i);
      store (dst + i) b ;;
      memcpy_loop fuel' dst src (i + 1)
  end.

Definition memcpy (dst src n : Z) : C Z :=
  if decide (overlap dst src n) then undefined
  else memcpy_loop (Z.to_nat n) dst src 0 ;; cret dst.

(** ** The function of the header *)

Definition strndup (str : Z) (maxlen : Z) : C Z :=
  len ← strnlen str maxlen;
  ret ← malloc (size_add len 1);
  if decide (ret ≠ NULL) then
    memcpy ret str len ;;
    store (ret + len) NUL ;;
    cret ret
  else cret ret.

(** ** Specification vocabulary *)

(** The bytes [bs] are stored from address [p] on. *)
Fixpoint array_at (h : heap) (p : Z) (bs : list byte) : Prop :=
  match bs with
  | [] => True
  | b :: bs' => h !! p = Some b ∧ array_at h (p + 1) bs'
  end.

(** [p] points to a zero-terminated string whose content is [s]. *)
Definition cstring_at (h : heap) (p : Z) (s : list byte) : Prop :=
  (NUL ∉ s) ∧ array_at h p (s ++ [NUL]).

(** Every allocated cell has a non-null address that fits a pointer. *)
Definition heap_wf (h : heap) : Prop :=
  map_Forall (fun a _ => 0 < a < SIZE_MODULUS) h.

(** The contract of the allocator: a block it hands out is non-null, has
    the requested size and shares no cell with what is already allocated. *)
Definition allocator_sound (al : allocator) : Prop :=
  ∀ h n p junk,
    al h n = Some (p, junk) →
    p ≠ NULL ∧ Z.of_nat (length junk) = n ∧
    ∀ i, 0 <= i < n → h !! (p + i) = None.

(** The length of a byte list, as a [size_t] value. *)
Definition len (s : list byte) : Z := Z.of_nat (length s).

(** The machine [m] after the events [evs] and with memory [h]. *)
Definition after (h : heap) (evs : list event) (m : machine) : machine :=
  {| mem := h; alloc := alloc m; trace := trace m ++ evs |}.

(** The addresses read, and the addresses written, by a list of events. *)
Definition reads_of (evs : list event) : list Z :=
  omap (fun e => match e with EvRead a => Some a | _ => None end) evs.
Definition writes_of (evs : list event) : list Z :=
  omap (fun e => match e with EvWrite a _ => Some a | _ => None end) evs.
Definition mallocs_of (evs : list event) : list (Z * Z) :=
  omap (fun e => match e with EvMalloc n p => Some (n, p) | _ => None end) evs.

(** What a bounded scan over the bytes [bs] returns, and how many bytes it
    looks at, when it may look at [fuel] bytes at most. *)
Fixpoint scan_len (fuel : nat) (bs : list byte) : nat :=
  match fuel, bs with
  | S fuel', b :: bs' => if decide (b = NUL) then O else S (scan_len fuel' bs')
  | _, _ => O
  end.

Fixpoint scan_examined (fuel : nat) (bs : list byte) : nat :=
  match fuel, bs with
  | S fuel', b :: bs' =>
      if decide (b = NUL) then 1%nat else S (scan_examined fuel' bs')
  | _, _ => O
  end.

(** The events of copying [bs] from [src] to [dst], byte by byte. *)
Fixpoint copy_events (dst src : Z) (bs : list byte) : list event :=
  match bs with
  | [] => []
  | b :: bs' => EvRead src :: EvWrite dst b :: copy_events (dst + 1) (src + 1) bs'
  end.

(** The events a run from [m] to [m'] has appended to the trace. *)
Definition new_events (m m' : machine) : list event :=
  drop (length (trace m)) (trace m').

(** A run from [m] to [m'] has only appended to the trace. *)
Definition extends (m m' : machine) : Prop :=
  ∃ evs, trace m' = trace m ++ evs.

(** The number of bytes [strndup] copies: the length of the input string,
    capped at the bound. *)
Definition effective_length (s : list byte) (B : Z) : Z := Z.min (len s) B.

(** The content of the copy: that many leading bytes of the input. *)
Definition copied (s : list byte) (B : Z) : list byte :=
  take (Z.to_nat (effective_length s B)) s.

(** The events of the length scan of [strndup] on the string [s] at [str]:
    it looks at the bytes of [s] and at the terminator, [B] bytes at most. *)
Definition scan_events (str : Z) (s : list byte) (B : Z) : list event :=
  EvRead <$> seqZ str (Z.min (len s + 1) B).

(** The events of a whole call that is given the block at [ret]. *)
Definition strndup_events (str : Z) (s : list byte) (B : Z) (ret : Z) : list event :=
  scan_events str s B ++
  [EvMalloc (effective_length s B + 1) ret] ++
  copy_events ret str (copied s B) ++
  [EvWrite (ret + effective_length s B) NUL].

(** ** The platform primitive *)

(** Modelled from the spec: the characters the platform-provided [strndup]
    copies.  That primitive is not part of the sources; the specification
    gives its contract as a new zero-terminated copy holding at most
    [bound] bytes of the input's content, and the C23 library clause makes
    it precise: no more than [size] initial characters of the array pointed
    to by [s], up to the first null character. *)
Fixpoint initial_chars (size : nat) (h : heap) (s : Z) : option (list byte) :=
  match size with
  | O => Some []
  | S size' =>
      match h !! s with
      | None => None
      | Some c =>
          if decide (c = NUL) then Some []
          else cons c <$> initial_chars size' h (s + 1)
      end
  end.

(** Modelled from the spec: the platform-provided [strndup], used on every
    target that has it.  The copy is created in space allocated as if by
    [malloc] and always ends in a terminator; a null pointer is returned if
    no space can be allocated. *)
Definition platform_strndup (s : Z) (size : Z) : C Z :=
  fun m =>
    match initial_chars (Z.to_nat size) (mem m) s with
    | None => None
    | Some cs =>
        match alloc m (mem m) (len cs + 1) with
        | None => Some (NULL, m)
        | Some (p, _) =>
            Some (p, set_mem (write_block p (cs ++ [NUL]) (mem m)) m)
        end
    end.

(** ** Concrete allocators and machines *)

(** An allocator that never has memory to give. *)
Definition failing_allocator : allocator := fun _ _ => None.

(** An allocator that serves every request from the address [base], as long
    as the block is free, and fills the block with the byte [fill]. *)
Definition arena_allocator (base : Z) (fill : byte) : allocator :=
  fun h n =>
    if decide (base ≠ NULL ∧ 0 <= n ∧
               map_Forall (fun a _ => ¬ (base <= a < base + n)) h)
    then Some (base, replicate (Z.to_nat n) fill)
    else None.

(** ["hello world"] at address 100 and ["hi"] at address 200. *)
Definition hello_world : list byte :=
  [x68; x65; x6c; x6c; x6f; x20; x77; x6f; x72; x6c; x64].
Definition hello : list byte := [x68; x65; x6c; x6c; x6f].
Definition hi : list byte := [x68; x69].

Definition demo_heap : heap :=
  write_block 100 (hello_world ++ [NUL]) (write_block 200 (hi ++ [NUL]) ∅).

Definition demo_machine : machine :=
  {| mem := demo_heap; alloc := arena_allocator 4096 xaa; trace := [] |}.

Definition starved_machine : machine :=
  {| mem := demo_heap; alloc := failing_allocator; trace := [] |}.

(** A second machine: ["hello world"] at another address, another allocator,
    and a trace that is not empty. *)
Definition other_machine : machine :=
  {| mem := write_block 7 (hello_world ++ [NUL]) ∅;
     alloc := arena_allocator 65536 x55;
     trace := [EvRead 7] |}.

(** Eight bytes without a terminator at address 300. *)
Definition unterminated_machine : machine :=
  {| mem := write_block 300 (replicate 8 x41) ∅;
     alloc := arena_allocator 4096 xaa;
     trace := [] |}.

(** ** Allocators that respect the address space *)

(** A block the allocator hands out lies within the addresses a pointer can
    hold, so that a heap that is well formed stays so. *)
Definition allocator_in_range (al : allocator) : Prop :=
  ∀ h n p junk,
    al h n = Some (p, junk) → 0 < p ∧ p + n <= SIZE_MODULUS.

(** The first address above every allocated cell. *)
Definition heap_top (h : heap) : Z :=
  map_fold (fun a _ top => Z.max (a + 1) top) 1 h.

(** An allocator that places each block right above the allocated cells,
    while the address space lasts, and fills it with the byte [fill]. *)
Definition bump_allocator (fill : byte) : allocator :=
  fun h n =>
    if decide (0 <= n ∧ heap_top h + n <= SIZE_MODULUS)
    then Some (heap_top h, replicate (Z.to_nat n) fill)
    else None.

Definition bump_machine : machine :=
  {| mem := demo_heap; alloc := bump_allocator xaa; trace := [] |}.

(** Bytes with a terminator in their midst, at address 500: ["ab"], a
    terminator, ["cd"], and nothing allocated behind. *)
Definition embedded_machine : machine :=
  {| mem := write_block 500 [x61; x62; NUL; x63; x64] ∅;
     alloc := bump_allocator xaa;
     trace := [] |}.

(** ** Decision procedures for the vocabulary *)

Global Instance array_at_dec h p bs : Decision (array_at h p bs).
Proof. revert p. induction bs as [|b bs IH]; intros p; simpl; apply _. Defined.

Global Instance cstring_at_dec h p s : Decision (cstring_at h p s).
Proof. unfold cstring_at. apply _. Defined.

Global Instance heap_wf_dec h : Decision (heap_wf h).
Proof. unfold heap_wf. apply _. Defined.

Global Instance is_size_t_dec n : Decision (is_size_t n).
Proof. unfold is_size_t. apply _. Defined.

(** What a test sees of a run: the pointer returned, whether it points to
    the string [content], and the trace. *)
Definition observe (content : list byte) (r : option (Z * machine))
    : option (Z * bool * list event) :=
  (fun rm => (rm.1, bool_decide (cstring_at (mem rm.2) rm.1 content), trace rm.2))
    <$> r.

(** ** Running the monad *)

Lemma run_bind {A B} (c : C A) (k : A → C B) (m : machine) :
  (c ≫= k) m = match c m with Some (x, m') => k x m' | None => None end.
Proof. reflexivity. Qed.

Lemma after_nil (m : machine) : after (mem m) [] m = m.
Proof. destruct m as [h al t]. unfold after. simpl. by rewrite app_nil_r. Qed.

Lemma after_after h1 h2 e1 e2 m :
  after h2 e2 (after h1 e1 m) = after h2 (e1 ++ e2) m.
Proof. unfold after. simpl. by rewrite app_assoc. Qed.

Lemma run_load a b m :
  mem m !! a = Some b → load a m = Some (b, after (mem m) [EvRead a] m).
Proof. intros H. unfold load. by rewrite H. Qed.

Lemma run_store a b m :
  is_Some (mem m !! a) →
  store a b m = Some (tt, after (<[a:=b]> (mem m)) [EvWrite a b] m).
Proof. intros [b0 H]. unfold store. by rewrite H. Qed.

(** ** Blocks of memory *)

Lemma lookup_write_block (p : Z) (bs : list byte) (h : heap) (a : Z) :
  write_block p bs h !! a =
    if decide (p <= a < p + len bs) then bs !! Z.to_nat (a - p) else h !! a.
Proof.
  revert p. induction bs as [|b bs IH]; intros p; unfold len in *; simpl.
  - case_decide; [lia | done].
  - rewrite lookup_insert. case_decide as Hpa.
    + subst a. rewrite decide_True by lia. by replace (p - p) with 0 by lia.
    + rewrite IH. repeat case_decide; try lia; try done.
      replace (Z.to_nat (a - p)) with (S (Z.to_nat (a - (p + 1)))) by lia.
      done.
Qed.

Lemma array_at_lookup (h : heap) (p : Z) (bs : list byte) :
  array_at h p bs ↔
  ∀ (i : nat) b, bs !! i = Some b → h !! (p + Z.of_nat i) = Some b.
Proof.
  revert p. induction bs as [|b bs IH]; intros p; simpl.
  - split; [intros _ i b' H; by destruct i | done].
  - rewrite IH. split.
    + intros [Hp Hrest] [|i] b' Hi; simpl in Hi.
      * injection Hi as <-. by replace (p + Z.of_nat 0) with p by lia.
      * replace (p + Z.of_nat (S i)) with (p + 1 + Z.of_nat i) by lia. by apply Hrest.
    + intros H. split.
      * specialize (H O b eq_refl). by replace (p + Z.of_nat 0) with p in H by lia.
      * intros i b' Hi. specialize (H (S i) b' Hi).
        by replace (p + Z.of_nat (S i)) with (p + 1 + Z.of_nat i) in H by lia.
Qed.

Lemma array_at_write_block (p : Z) (bs : list byte) (h : heap) :
  array_at (write_block p bs h) p bs.
Proof.
  apply array_at_lookup. intros i b Hi. rewrite lookup_write_block.
  pose proof (lookup_lt_Some _ _ _ Hi). unfold len.
  rewrite decide_True by lia. by replace (Z.to_nat (p + Z.of_nat i - p)) with i by lia.
Qed.

Lemma array_at_app (h : heap) (p : Z) (xs ys : list byte) :
  array_at h p (xs ++ ys) ↔ array_at h p xs ∧ array_at h (p + len xs) ys.
Proof.
  revert p. induction xs as [|x xs IH]; intros p; unfold len in *; simpl.
  - replace (p + Z.of_nat 0) with p by lia. tauto.
  - rewrite IH.
    replace (p + 1 + Z.of_nat (length xs))
      with (p + Z.of_nat (S (length xs))) by lia.
    tauto.
Qed.

Lemma array_at_agree (h h' : heap) (p : Z) (bs : list byte) :
  (∀ a, p <= a < p + len bs → h' !! a = h !! a) →
  array_at h p bs → array_at h' p bs.
Proof.
  rewrite !array_at_lookup. intros Hag H i b Hi.
  pose proof (lookup_lt_Some _ _ _ Hi). unfold len in Hag.
  rewrite Hag by lia. by apply H.
Qed.

(** ** The library primitives, run *)

Lemma run_strnlen_loop (fuel : nat) (s i : Z) (m : machine) (bs : list byte) :
  array_at (mem m) (s + i) bs →
  NUL ∈ bs ∨ (fuel ≤ length bs)%nat →
  strnlen_loop fuel s i m =
    Some (i + Z.of_nat (scan_len fuel bs),
          after (mem m)
            (EvRead <$> seqZ (s + i) (Z.of_nat (scan_examined fuel bs))) m).
Proof.
  revert i m bs. induction fuel as [|fuel IH]; intros i m bs Harr Hterm.
  - simpl. unfold cret. rewrite after_nil. do 2 f_equal. lia.
  - destruct bs as [|b bs].
    { destruct Hterm as [H|H]; [by apply elem_of_nil in H | simpl in H; lia]. }
    destruct Harr as [Hb Harr]. simpl.
    rewrite run_bind, (run_load _ _ _ Hb).
    destruct (decide (b = NUL)) as [->|Hne].
    + unfold cret. do 2 f_equal. lia.
    + replace (s + i + 1) with (s + (i + 1)) in Harr by lia.
      rewrite (IH (i + 1) _ bs); simpl; [|done|].
      * rewrite after_after. do 2 f_equal; [lia|]. f_equal.
        rewrite (seqZ_cons (s + i)) by lia. simpl. do 3 f_equal; lia.
      * destruct Hterm as [H|H]; [|right; simpl in H; lia].
        apply elem_of_cons in H as [H|H]; [congruence | by left].
Qed.

Lemma run_strnlen (s maxlen : Z) (m : machine) (bs : list byte) :
  array_at (mem m) s bs →
  NUL ∈ bs ∨ maxlen <= len bs →
  strnlen s maxlen m =
    Some (Z.of_nat (scan_len (Z.to_nat maxlen) bs),
          after (mem m)
            (EvRead <$> seqZ s (Z.of_nat (scan_examined (Z.to_nat maxlen) bs))) m).
Proof.
  intros Harr Hterm. unfold strnlen.
  rewrite (run_strnlen_loop _ s 0 m bs).
  - by replace (s + 0) with s by lia.
  - by replace (s + 0) with s by lia.
  - destruct Hterm as [H|H]; [by left | right; unfold len in H; lia].
Qed.

Lemma write_block_insert_before (p a : Z) (b : byte) (bs : list byte) (h : heap) :
  a < p →
  write_block p bs (<[a:=b]> h) = <[a:=b]> (write_block p bs h).
Proof.
  intros Hlt. apply map_eq. intros k.
  rewrite lookup_write_block, !lookup_insert, lookup_write_block.
  repeat case_decide; try done; lia.
Qed.

Lemma run_memcpy_loop (fuel : nat) (dst src i : Z) (m : machine) (bs : list byte) :
  length bs = fuel →
  array_at (mem m) (src + i) bs →
  (∀ j, 0 <= j < len bs → is_Some (mem m !! (dst + i + j))) →
  ¬ overlap (dst + i) (src + i) (len bs) →
  memcpy_loop fuel dst src i m =
    Some (tt, after (write_block (dst + i) bs (mem m))
                (copy_events (dst + i) (src + i) bs) m).
Proof.
  revert i m bs. induction fuel as [|fuel IH]; intros i m bs Hlen Harr Hdst Hno.
  - destruct bs; [|done]. simpl. unfold cret. by rewrite after_nil.
  - destruct bs as [|b bs]; [done|]. destruct Harr as [Hb Harr].
    injection Hlen as Hlen. unfold len in *. simpl length in *. simpl.
    assert (Hcell : is_Some (mem m !! (dst + i))).
    { replace (dst + i) with (dst + i + 0) by lia. apply Hdst. lia. }
    rewrite run_bind, (run_load _ _ _ Hb), run_bind, run_store by done.
    rewrite after_after. simpl app.
    assert (Hne : ∀ a, src + i + 1 <= a < src + i + 1 + len bs → dst + i ≠ a).
    { intros a Ha Heq. subst a. apply Hno. unfold overlap, len in *. lia. }
    rewrite (IH (i + 1) _ bs); simpl; [| done | | |].
    + rewrite after_after.
      replace (dst + (i + 1)) with (dst + i + 1) by lia.
      replace (src + (i + 1)) with (src + i + 1) by lia.
      by rewrite write_block_insert_before by lia.
    + replace (src + (i + 1)) with (src + i + 1) by lia.
      eapply array_at_agree; [|exact Harr].
      intros a Ha. apply lookup_insert_ne. by apply Hne.
    + intros j Hj. apply lookup_insert_is_Some'. right.
      replace (dst + (i + 1) + j) with (dst + i + (1 + j)) by lia.
      apply Hdst. unfold len in Hj. lia.
    + intros Hov. apply Hno. unfold overlap, len in *. lia.
Qed.

Lemma run_memcpy (dst src n : Z) (m : machine) (bs : list byte) :
  len bs = n →
  array_at (mem m) src bs →
  (∀ j, 0 <= j < n → is_Some (mem m !! (dst + j))) →
  ¬ overlap dst src n →
  memcpy dst src n m =
    Some (dst, after (write_block dst bs (mem m)) (copy_events dst src bs) m).
Proof.
  intros Hn Harr Hdst Hno. unfold memcpy. rewrite decide_False by done.
  rewrite run_bind, (run_memcpy_loop _ dst src 0 m bs).
  - by replace (dst + 0) with dst by lia; replace (src + 0) with src by lia.
  - unfold len in Hn. lia.
  - by replace (src + 0) with src by lia.
  - intros j Hj. replace (dst + 0 + j) with (dst + j) by lia. apply Hdst. lia.
  - replace (dst + 0) with dst by lia; replace (src + 0) with src by lia.
    by rewrite Hn.
Qed.

Lemma run_malloc_fail (n : Z) (m : machine) :
  alloc m (mem m) n = None →
  malloc n m = Some (NULL, after (mem m) [EvMalloc n NULL] m).
Proof. intros H. unfold malloc. by rewrite H. Qed.

Lemma run_malloc_ok (n p : Z) (junk : list byte) (m : machine) :
  alloc m (mem m) n = Some (p, junk) →
  malloc n m =
    Some (p, after (write_block p junk (mem m)) [EvMalloc n p] m).
Proof. intros H. unfold malloc. by rewrite H. Qed.

(** ** Scanning a zero-terminated string *)

Lemma scan_len_le (fuel : nat) (bs : list byte) :
  (scan_len fuel bs ≤ scan_examined fuel bs ≤ fuel)%nat.
Proof.
  revert bs. induction fuel as [|fuel IH]; intros [|b bs]; simpl; try lia.
  case_decide; [lia|]. specialize (IH bs). lia.
Qed.

Lemma scan_len_cstring (fuel : nat) (s : list byte) :
  NUL ∉ s → scan_len fuel (s ++ [NUL]) = (fuel `min` length s)%nat.
Proof.
  revert fuel. induction s as [|b s IH]; intros fuel Hs.
  - by destruct fuel.
  - apply not_elem_of_cons in Hs as [Hb Hs]. destruct fuel; [done|]. simpl.
    rewrite decide_False by done. by rewrite IH.
Qed.

Lemma scan_examined_cstring (fuel : nat) (s : list byte) :
  NUL ∉ s → scan_examined fuel (s ++ [NUL]) = (fuel `min` S (length s))%nat.
Proof.
  revert fuel. induction s as [|b s IH]; intros fuel Hs.
  - destruct fuel; simpl; [done | lia].
  - apply not_elem_of_cons in Hs as [Hb Hs]. destruct fuel; [done|]. simpl.
    rewrite decide_False by done. by rewrite IH.
Qed.

(** ** Events and traces *)

Lemma new_events_after (h : heap) (evs : list event) (m : machine) :
  new_events m (after h evs m) = evs.
Proof. unfold new_events, after. simpl. by rewrite drop_app_length. Qed.

Lemma reads_of_app (xs ys : list event) :
  reads_of (xs ++ ys) = reads_of xs ++ reads_of ys.
Proof. apply omap_app. Qed.

Lemma writes_of_app (xs ys : list event) :
  writes_of (xs ++ ys) = writes_of xs ++ writes_of ys.
Proof. apply omap_app. Qed.


Lemma reads_of_reads (l : list Z) : reads_of (EvRead <$> l) = l.
Proof.
  induction l as [|a l IH]; [done|]. unfold reads_of in *. simpl.
  f_equal. exact IH.
Qed.

Lemma writes_of_reads (l : list Z) : writes_of (EvRead <$> l) = [].
Proof. induction l as [|a l IH]; [done|]. unfold writes_of in *. simpl. exact IH. Qed.


Lemma reads_of_copy (dst src : Z) (bs : list byte) :
  reads_of (copy_events dst src bs) = seqZ src (len bs).
Proof.
  revert dst src. induction bs as [|b bs IH]; intros dst src; [done|].
  unfold reads_of, len in *. simpl. rewrite IH.
  rewrite (seqZ_cons src) by lia. do 2 f_equal; lia.
Qed.

Lemma writes_of_copy (dst src : Z) (bs : list byte) :
  writes_of (copy_events dst src bs) = seqZ dst (len bs).
Proof.
  revert dst src. induction bs as [|b bs IH]; intros dst src; [done|].
  unfold writes_of, len in *. simpl. rewrite IH.
  rewrite (seqZ_cons dst) by lia. do 2 f_equal; lia.
Qed.

Lemma mallocs_of_copy (dst src : Z) (bs : list byte) :
  mallocs_of (copy_events dst src bs) = [].
Proof.
  revert dst src. induction bs as [|b bs IH]; intros dst src; [done|].
  unfold mallocs_of in *. simpl. by rewrite IH.
Qed.

(** ** Zero-terminated strings in a well-formed heap *)

Lemma cstring_at_cells (h : heap) (p : Z) (s : list byte) :
  cstring_at h p s → ∀ j, 0 <= j <= len s → is_Some (h !! (p + j)).
Proof.
  intros [_ Harr] j Hj. rewrite array_at_lookup in Harr. unfold len in Hj.
  destruct (lookup_lt_is_Some_2 (s ++ [NUL]) (Z.to_nat j)) as [b Hb].
  { rewrite length_app. simpl. lia. }
  exists b. specialize (Harr _ _ Hb).
  by replace (p + Z.of_nat (Z.to_nat j)) with (p + j) in Harr by lia.
Qed.

Lemma cstring_at_bounds (h : heap) (p : Z) (s : list byte) :
  heap_wf h → cstring_at h p s → 0 < p ∧ p + len s < SIZE_MODULUS.
Proof.
  intros Hwf Hstr. pose proof (cstring_at_cells h p s Hstr) as Hcells.
  assert (0 <= len s) by (unfold len; lia).
  destruct (Hcells 0) as [b0 H0]; [lia|].
  destruct (Hcells (len s)) as [b1 H1]; [lia|].
  apply Hwf in H0, H1. lia.
Qed.

Lemma cstring_at_prefix (h : heap) (p : Z) (s : list byte) (k : nat) :
  cstring_at h p s → array_at h p (take k s).
Proof.
  intros [_ Harr]. rewrite <- (take_drop k s), <- app_assoc in Harr.
  by apply array_at_app in Harr as [Harr _].
Qed.

Lemma cstring_at_unique (h : heap) (p : Z) (s1 s2 : list byte) :
  cstring_at h p s1 → cstring_at h p s2 → s1 = s2.
Proof.
  revert p s2. induction s1 as [|b1 s1 IH]; intros p [|b2 s2] [Hn1 H1] [Hn2 H2];
    simpl in *.
  - done.
  - destruct H1 as [H1 _], H2 as [H2 _]. rewrite H1 in H2. injection H2 as <-.
    exfalso. apply Hn2. by left.
  - destruct H1 as [H1 _], H2 as [H2 _]. rewrite H1 in H2. injection H2 as ->.
    exfalso. apply Hn1. by left.
  - destruct H1 as [H1 H1'], H2 as [H2 H2']. rewrite H1 in H2. injection H2 as <-.
    apply not_elem_of_cons in Hn1 as [_ Hn1], Hn2 as [_ Hn2].
    f_equal. by apply (IH (p + 1)).
Qed.

Lemma len_copied (s : list byte) (B : Z) :
  0 <= B → len (copied s B) = effective_length s B.
Proof.
  intros HB. unfold copied, effective_length, len. rewrite length_take. lia.
Qed.

Lemma copied_no_NUL (s : list byte) (B : Z) : NUL ∉ s → NUL ∉ copied s B.
Proof.
  intros Hs Hin. apply Hs. unfold copied in Hin.
  by apply (subseteq_take _ s) in Hin.
Qed.

(** ** A call of [strndup] on a zero-terminated string *)

Section call.
Context (m : machine) (str B : Z) (s : list byte).
Hypothesis Hwf : heap_wf (mem m).
Hypothesis Hal : allocator_sound (alloc m).
Hypothesis Hstr : cstring_at (mem m) str s.
Hypothesis HB : is_size_t B.

Lemma effective_length_range :
  0 <= effective_length s B ∧ effective_length s B + 1 < SIZE_MODULUS.
Proof.
  pose proof (cstring_at_bounds _ _ _ Hwf Hstr).
  unfold effective_length, is_size_t, len in *. lia.
Qed.

Lemma request_size : size_add (effective_length s B) 1 = effective_length s B + 1.
Proof.
  pose proof effective_length_range. unfold size_add.
  apply Z.mod_small. lia.
Qed.

Lemma run_scan :
  strnlen str B m =
    Some (effective_length s B, after (mem m) (scan_events str s B) m).
Proof.
  destruct Hstr as [Hs Harr]. destruct HB as [HB0 _].
  rewrite (run_strnlen str B m (s ++ [NUL]) Harr).
  - rewrite scan_len_cstring, scan_examined_cstring by done.
    unfold effective_length, scan_events, len. do 3 f_equal; [lia|].
    do 2 f_equal. lia.
  - left. apply elem_of_app. right. by left.
Qed.

Lemma run_strndup_null :
  alloc m (mem m) (effective_length s B + 1) = None →
  strndup str B m =
    Some (NULL,
          after (mem m)
            (scan_events str s B ++ [EvMalloc (effective_length s B + 1) NULL]) m).
Proof.
  intros Hnone. unfold strndup.
  rewrite run_bind, run_scan, run_bind, request_size, run_malloc_fail by done.
  rewrite decide_False by (intros H; by apply H).
  simpl. unfold cret. by rewrite after_after.
Qed.

Lemma run_strndup_block (p : Z) (junk : list byte) :
  alloc m (mem m) (effective_length s B + 1) = Some (p, junk) →
  strndup str B m =
    Some (p, after (write_block p (copied s B ++ [NUL]) (mem m))
               (strndup_events str s B p) m).
Proof.
  intros Hsome. destruct (Hal _ _ _ _ Hsome) as (Hp & Hjunk & Hfresh).
  pose proof effective_length_range as [Hn0 _]. destruct HB as [HB0 _].
  pose proof (len_copied s B HB0) as Hlen.
  pose proof (cstring_at_cells _ _ _ Hstr) as Hcells.
  set (n := effective_length s B) in *.
  assert (Hn : n <= len s) by (unfold n, effective_length; lia).
  unfold strndup.
  rewrite run_bind, run_scan, run_bind, request_size. fold n.
  rewrite (run_malloc_ok _ p junk) by done. simpl mem.
  rewrite decide_True by done.
  rewrite run_bind, (run_memcpy p str n _ (copied s B)); simpl mem.
  - rewrite run_bind, run_store; simpl mem.
    + unfold cret. rewrite !after_after. do 2 f_equal.
      unfold strndup_events. fold n. unfold after. f_equal.
      apply map_eq. intros a.
      rewrite lookup_insert, !lookup_write_block.
      unfold len in *. rewrite length_app. simpl length.
      repeat case_decide; try lia; try done.
      * subst a. replace (Z.to_nat (p + n - p)) with (length (copied s B)) by lia.
        by rewrite list_lookup_middle.
      * rewrite lookup_app_l by lia. done.
    + rewrite !lookup_write_block. rewrite Hlen. unfold len.
      rewrite decide_False by lia. rewrite decide_True by lia.
      apply lookup_lt_is_Some. lia.
  - done.
  - eapply array_at_agree; [|apply (cstring_at_prefix _ _ _ _ Hstr)].
    intros a Ha. fold (copied s B) in Ha. rewrite Hlen in Ha.
    rewrite lookup_write_block. case_decide as Hin; [|done].
    exfalso. destruct (Hcells (a - str)) as [b Hb]; [lia|].
    replace (str + (a - str)) with a in Hb by lia.
    unfold len in Hin.
    assert (Hf : mem m !! (p + (a - p)) = None) by (apply Hfresh; lia).
    replace (p + (a - p)) with a in Hf by lia. congruence.
  - intros j Hj. rewrite lookup_write_block. unfold len.
    rewrite decide_True by lia. apply lookup_lt_is_Some. lia.
  - intros (Hpos & H1 & H2).
    destruct (Hcells (Z.max p str - str)) as [b Hb]; [lia|].
    assert (Hf : mem m !! (p + (Z.max p str - p)) = None) by (apply Hfresh; lia).
    replace (str + (Z.max p str - str)) with (Z.max p str) in Hb by lia.
    replace (p + (Z.max p str - p)) with (Z.max p str) in Hf by lia.
    congruence.
Qed.
End call.

(** The two outcomes of a call, according to what the allocator answers. *)
Lemma strndup_outcome (m : machine) (str B : Z) (s : list byte) :
  heap_wf (mem m) → allocator_sound (alloc m) →
  cstring_at (mem m) str s → is_size_t B →
  (alloc m (mem m) (effective_length s B + 1) = None ∧
   strndup str B m =
     Some (NULL,
           after (mem m)
             (scan_events str s B ++ [EvMalloc (effective_length s B + 1) NULL]) m))
  ∨
  (∃ p junk,
     alloc m (mem m) (effective_length s B + 1) = Some (p, junk) ∧
     p ≠ NULL ∧
     (∀ i, 0 <= i <= effective_length s B → mem m !! (p + i) = None) ∧
     strndup str B m =
       Some (p, after (write_block p (copied s B ++ [NUL]) (mem m))
                  (strndup_events str s B p) m)).
Proof.
  intros Hwf Hal Hstr HB.
  destruct (alloc m (mem m) (effective_length s B + 1)) as [[p junk]|] eqn:Ha.
  - right. exists p, junk. destruct (Hal _ _ _ _ Ha) as (Hp & _ & Hfresh).
    split_and!; [done | done | intros i Hi; apply Hfresh; lia |].
    by apply (run_strndup_block m str B s Hwf Hal Hstr HB p junk).
  - left. split; [done|]. by apply run_strndup_null.
Qed.

(** The copy laid out at [p] is a zero-terminated string. *)
Lemma cstring_at_copy (h : heap) (p : Z) (s : list byte) (B : Z) :
  NUL ∉ s → cstring_at (write_block p (copied s B ++ [NUL]) h) p (copied s B).
Proof.
  intros Hs. split; [by apply copied_no_NUL | apply array_at_write_block].
Qed.

(** ** Soundness of the concrete allocators *)

Lemma failing_allocator_sound : allocator_sound failing_allocator.
Proof. intros h n p junk H. discriminate H. Qed.

Lemma arena_allocator_sound (base : Z) (fill : byte) :
  allocator_sound (arena_allocator base fill).
Proof.
  intros h n p junk H. unfold arena_allocator in H.
  case_decide as Hok; [|done]. destruct Hok as (Hbase & Hn & Hfree).
  injection H as <- <-. split_and!; [done | rewrite length_replicate; lia |].
  intros i Hi. destruct (h !! (base + i)) as [b|] eqn:Hb; [|done].
  apply Hfree in Hb. lia.
Qed.

(** ** The properties of [strndup] *)

(** C1: for every zero-terminated input string [s] and every bound [B], the
    call returns; its result is null exactly when the allocator refuses the
    request, so that whenever the allocation succeeds the result is not
    null; and a result that is not null points to a zero-terminated string
    whose content is the first [min (len s) B] bytes of [s]; its length is
    that minimum and so never exceeds [B]. *)
Theorem strndup_copies_bounded_prefix (m : machine) (str B : Z) (s : list byte) :
  heap_wf (mem m) → allocator_sound (alloc m) →
  cstring_at (mem m) str s → is_size_t B →
  ∃ ret m',
    strndup str B m = Some (ret, m') ∧
    (ret = NULL ↔ alloc m (mem m) (Z.min (len s) B + 1) = None) ∧
    (ret ≠ NULL →
     cstring_at (mem m') ret (take (Z.to_nat (Z.min (len s) B)) s) ∧
     len (take (Z.to_nat (Z.min (len s) B)) s) = Z.min (len s) B ∧
     len (take (Z.to_nat (Z.min (len s) B)) s) <= B).
Proof.
  intros Hwf Hal Hstr HB.
  destruct (strndup_outcome m str B s Hwf Hal Hstr HB)
    as [[Ha Hrun]|(p & junk & Ha & Hp & _ & Hrun)];
    unfold effective_length in Ha.
  - eexists _, _. split; [exact Hrun|]. split; [done | done].
  - eexists _, _. split; [exact Hrun|]. split.
    { rewrite Ha. split; [done | discriminate]. }
    intros _. simpl mem.
    destruct HB as [HB0 _]. pose proof (len_copied s B HB0) as Hlen.
    unfold copied, effective_length in *. split_and!.
    + apply (cstring_at_copy _ _ s B). apply Hstr.
    + done.
    + lia.
Qed.

(** The scenario of the specification: ["hello world"] with bound 5, with
    an allocator that grants the six bytes, gives a result that is not null
    and points to ["hello"], five bytes and the terminator. *)
Lemma strndup_copies_bounded_prefix_witness :
  ∃ ret m',
    strndup 100 5 demo_machine = Some (ret, m') ∧
    ret ≠ NULL ∧
    cstring_at (mem m') ret hello ∧ len hello = 5 ∧ len hello <= 5.
Proof.
  destruct (strndup_copies_bounded_prefix demo_machine 100 5 hello_world)
    as (ret & m' & Hrun & Hnull & Hcopy).
  - compute_done.
  - apply arena_allocator_sound.
  - compute_done.
  - compute_done.
  - assert (Hret : ret ≠ NULL).
    { intros H. apply Hnull in H. vm_compute in H. discriminate H. }
    exists ret, m'. split; [exact Hrun|]. split; [exact Hret|].
    exact (Hcopy Hret).
Defined.

(** C2: when the allocator has no memory to give, the call returns the null
    pointer, leaves the memory as it was and performs no write; and the
    null pointer is returned in that case only. *)
Theorem strndup_allocation_failure (m : machine) (str B : Z) (s : list byte) :
  heap_wf (mem m) → allocator_sound (alloc m) →
  cstring_at (mem m) str s → is_size_t B →
  ∃ ret m',
    strndup str B m = Some (ret, m') ∧
    (ret = NULL ↔ alloc m (mem m) (Z.min (len s) B + 1) = None) ∧
    (ret = NULL → mem m' = mem m ∧ writes_of (new_events m m') = []).
Proof.
  intros Hwf Hal Hstr HB.
  destruct (strndup_outcome m str B s Hwf Hal Hstr HB)
    as [[Ha Hrun]|(p & junk & Ha & Hp & _ & Hrun)];
    unfold effective_length in Ha.
  - eexists _, _. split; [exact Hrun|]. split; [done|]. intros _.
    split; [done|]. rewrite new_events_after, writes_of_app.
    unfold scan_events. by rewrite writes_of_reads.
  - eexists _, _. split; [exact Hrun|]. split; [|done].
    rewrite Ha. split; [done | discriminate].
Qed.

Lemma strndup_allocation_failure_witness :
  ∃ ret m',
    strndup 200 10 starved_machine = Some (ret, m') ∧
    (ret = NULL ↔ failing_allocator demo_heap (Z.min (len hi) 10 + 1) = None) ∧
    (ret = NULL →
     mem m' = demo_heap ∧ writes_of (new_events starved_machine m') = []).
Proof.
  apply (strndup_allocation_failure starved_machine 200 10 hi).
  - compute_done.
  - apply failing_allocator_sound.
  - compute_done.
  - compute_done.
Defined.

(** C3: when the input string is no longer than the bound, the call asks
    for [len s + 1] bytes and returns null only if the allocator refuses
    them; otherwise it returns a copy of the whole string, terminator
    included, whatever the bound is. *)
Theorem strndup_copies_whole_string (m : machine) (str B : Z) (s : list byte) :
  heap_wf (mem m) → allocator_sound (alloc m) →
  cstring_at (mem m) str s → is_size_t B →
  len s <= B →
  ∃ ret m',
    strndup str B m = Some (ret, m') ∧
    (ret = NULL ↔ alloc m (mem m) (len s + 1) = None) ∧
    (ret ≠ NULL →
     cstring_at (mem m') ret s ∧ array_at (mem m') ret (s ++ [NUL])).
Proof.
  intros Hwf Hal Hstr HB Hle.
  assert (He : effective_length s B = len s)
    by (unfold effective_length; lia).
  destruct (strndup_outcome m str B s Hwf Hal Hstr HB)
    as [[Ha Hrun]|(p & junk & Ha & Hp & _ & Hrun)]; rewrite He in Ha.
  - eexists _, _. split; [exact Hrun|]. split; [done | done].
  - eexists _, _. split; [exact Hrun|]. split.
    { rewrite Ha. split; [done | discriminate]. }
    intros _. simpl mem.
    assert (Hall : copied s B = s).
    { unfold copied, effective_length, len in *. apply take_ge. lia. }
    pose proof (cstring_at_copy (mem m) p s B (proj1 Hstr)) as Hcopy.
    rewrite Hall in Hcopy |- *. split; [exact Hcopy | exact (proj2 Hcopy)].
Qed.

(** The scenario of the specification: ["hi"] with bound 10, with an
    allocator that grants the three bytes, gives a result that is not null
    and points to ["hi"], two bytes and the terminator. *)
Lemma strndup_copies_whole_string_witness :
  ∃ ret m',
    strndup 200 10 demo_machine = Some (ret, m') ∧
    ret ≠ NULL ∧
    cstring_at (mem m') ret hi ∧ array_at (mem m') ret (hi ++ [NUL]).
Proof.
  destruct (strndup_copies_whole_string demo_machine 200 10 hi)
    as (ret & m' & Hrun & Hnull & Hcopy).
  - compute_done.
  - apply arena_allocator_sound.
  - compute_done.
  - compute_done.
  - compute_done.
  - assert (Hret : ret ≠ NULL).
    { intros H. apply Hnull in H. vm_compute in H. discriminate H. }
    exists ret, m'. split; [exact Hrun|]. split; [exact Hret|].
    exact (Hcopy Hret).
Defined.

(** C4: with the bound 0 the call returns, for every input pointer; the
    result is null only if the allocator refused the one byte asked for, and
    otherwise it points to the empty string, that is to a terminator. *)
Theorem strndup_zero_bound (m : machine) (str : Z) :
  allocator_sound (alloc m) →
  ∃ ret m',
    strndup str 0 m = Some (ret, m') ∧
    (ret = NULL ↔ alloc m (mem m) 1 = None) ∧
    (ret ≠ NULL → cstring_at (mem m') ret [] ∧ mem m' !! ret = Some NUL).
Proof.
  intros Hal. unfold strndup, strnlen. simpl strnlen_loop.
  rewrite run_bind. unfold cret at 1. rewrite run_bind.
  change (size_add 0 1) with 1.
  destruct (alloc m (mem m) 1) as [[p junk]|] eqn:Ha.
  - destruct (Hal _ _ _ _ Ha) as (Hp & Hjunk & _).
    destruct junk as [|j [|? ?]]; simpl in Hjunk; try lia.
    rewrite (run_malloc_ok _ p [j]) by done. rewrite decide_True by done.
    unfold memcpy. rewrite decide_False by (unfold overlap; lia).
    simpl memcpy_loop. rewrite !run_bind. unfold cret. cbv beta iota.
    rewrite run_bind, run_store.
    + eexists _, _. split; [reflexivity|]. split; [done|]. intros _.
      simpl mem. replace (p + 0) with p by lia.
      unfold cstring_at. simpl. rewrite lookup_insert_eq.
      split_and!; [apply not_elem_of_nil | done | done | done].
    + simpl mem. replace (p + 0) with p by lia. by rewrite lookup_insert_eq.
  - rewrite run_malloc_fail by done. rewrite decide_False by (intros H; by apply H).
    eexists _, _. split; [reflexivity | done].
Qed.

Lemma strndup_zero_bound_witness :
  ∃ ret m',
    strndup 100 0 demo_machine = Some (ret, m') ∧
    (ret = NULL ↔ arena_allocator 4096 xaa demo_heap 1 = None) ∧
    (ret ≠ NULL → cstring_at (mem m') ret [] ∧ mem m' !! ret = Some NUL).
Proof.
  apply (strndup_zero_bound demo_machine 100).
  apply arena_allocator_sound.
Defined.



(** C7: a call leaves the input string as it was; every cell outside the
    block it has been given keeps its content, and that block was not
    allocated before; it reads no cell but those of the input string and
    writes no cell but those of the new block; the allocator is unchanged. *)
Theorem strndup_frame (m : machine) (str B : Z) (s : list byte) :
  heap_wf (mem m) → allocator_sound (alloc m) →
  cstring_at (mem m) str s → is_size_t B →
  ∃ ret m',
    strndup str B m = Some (ret, m') ∧
    cstring_at (mem m') str s ∧
    (∀ a, ret = NULL ∨ a < ret ∨ ret + Z.min (len s) B < a →
          mem m' !! a = mem m !! a) ∧
    (ret ≠ NULL →
     ∀ a, ret <= a <= ret + Z.min (len s) B → mem m !! a = None) ∧
    (∀ a, a ∈ reads_of (new_events m m') →
          str <= a <= str + len s ∧ a < str + B) ∧
    (∀ a, a ∈ writes_of (new_events m m') →
          ret ≠ NULL ∧ ret <= a <= ret + Z.min (len s) B) ∧
    alloc m' = alloc m.
Proof.
  intros Hwf Hal Hstr HB.
  pose proof (cstring_at_cells _ _ _ Hstr) as Hcells.
  assert (Hscan : ∀ a, a ∈ reads_of (scan_events str s B) →
                       str <= a <= str + len s ∧ a < str + B).
  { intros a. unfold scan_events. rewrite reads_of_reads, elem_of_seqZ. lia. }
  destruct (strndup_outcome m str B s Hwf Hal Hstr HB)
    as [[_ Hrun]|(p & junk & _ & Hp & Hfresh & Hrun)].
  - eexists _, _. split; [exact Hrun|]. rewrite new_events_after.
    split_and!; try done.
    + intros a. rewrite reads_of_app, app_nil_r. apply Hscan.
    + intros a. rewrite writes_of_app. unfold scan_events.
      rewrite writes_of_reads. simpl. by intros ?%elem_of_nil.
  - destruct HB as [HB0 HB1]. pose proof (len_copied s B HB0) as Hlen.
    unfold effective_length in *.
    assert (Hout : ∀ a, a < p ∨ p + Z.min (len s) B < a →
              write_block p (copied s B ++ [NUL]) (mem m) !! a = mem m !! a).
    { intros a Ha. rewrite lookup_write_block. unfold len in *.
      rewrite length_app. simpl length. rewrite decide_False; [done | lia]. }
    eexists _, _. split; [exact Hrun|]. rewrite new_events_after. simpl mem.
    split_and!.
    + split; [apply Hstr|]. eapply array_at_agree; [|apply Hstr].
      intros a Ha. unfold len in Ha. rewrite length_app in Ha. simpl in Ha.
      apply Hout. destruct (Hcells (a - str)) as [b Hb]; [unfold len; lia|].
      replace (str + (a - str)) with a in Hb by lia.
      destruct (decide (a < p ∨ p + Z.min (len s) B < a)) as [|Hin]; [done|].
      specialize (Hfresh (a - p)). replace (p + (a - p)) with a in Hfresh by lia.
      rewrite Hfresh in Hb; [done | lia].
    + intros a [Ha|Ha]; [done | by apply Hout].
    + intros _ a Ha. specialize (Hfresh (a - p)).
      replace (p + (a - p)) with a in Hfresh by lia. apply Hfresh. lia.
    + intros a. unfold strndup_events. rewrite !reads_of_app, reads_of_copy.
      simpl. rewrite app_nil_r, elem_of_app, elem_of_seqZ.
      intros [Ha|Ha]; [by apply Hscan|]. unfold effective_length in Ha. lia.
    + intros a. unfold strndup_events, scan_events.
      rewrite !writes_of_app, writes_of_reads, writes_of_copy. simpl.
      rewrite elem_of_app, elem_of_seqZ, list_elem_of_singleton.
      unfold effective_length. intros Ha. split; [done|]. unfold len in *. lia.
    + done.
Qed.

Lemma strndup_frame_witness :
  ∃ ret m',
    strndup 100 5 demo_machine = Some (ret, m') ∧
    cstring_at (mem m') 100 hello_world ∧
    (∀ a, ret = NULL ∨ a < ret ∨ ret + 5 < a → mem m' !! a = demo_heap !! a) ∧
    (ret ≠ NULL → ∀ a, ret <= a <= ret + 5 → demo_heap !! a = None) ∧
    (∀ a, a ∈ reads_of (new_events demo_machine m') →
          100 <= a <= 100 + 11 ∧ a < 100 + 5) ∧
    (∀ a, a ∈ writes_of (new_events demo_machine m') →
          ret ≠ NULL ∧ ret <= a <= ret + 5) ∧
    alloc m' = arena_allocator 4096 xaa.
Proof.
  apply (strndup_frame demo_machine 100 5 hello_world).
  - compute_done.
  - apply arena_allocator_sound.
  - compute_done.
  - compute_done.
Defined.

(** ** Runs only append to the trace *)

Lemma extends_refl (m : machine) : extends m m.
Proof. exists []. by rewrite app_nil_r. Qed.

Lemma extends_trans (m1 m2 m3 : machine) :
  extends m1 m2 → extends m2 m3 → extends m1 m3.
Proof.
  intros [e1 H1] [e2 H2]. exists (e1 ++ e2). by rewrite H2, H1, app_assoc.
Qed.

Lemma load_extends (a : Z) (m : machine) (b : byte) (m' : machine) :
  load a m = Some (b, m') → extends m m'.
Proof.
  unfold load. destruct (mem m !! a); [|done].
  intros [= _ <-]. by exists [EvRead a].
Qed.

Lemma store_extends (a : Z) (b : byte) (m : machine) (u : unit) (m' : machine) :
  store a b m = Some (u, m') → extends m m'.
Proof.
  unfold store. destruct (mem m !! a); [|done].
  intros [= _ <-]. by exists [EvWrite a b].
Qed.

Lemma memcpy_loop_extends (fuel : nat) (dst src i : Z) (m : machine)
    (u : unit) (m' : machine) :
  memcpy_loop fuel dst src i m = Some (u, m') → extends m m'.
Proof.
  revert i m. induction fuel as [|fuel IH]; intros i m; simpl.
  - intros [= _ <-]. apply extends_refl.
  - rewrite run_bind. destruct (load (src + i) m) as [[b m1]|] eqn:Hl; [|done].
    rewrite run_bind. destruct (store (dst + i) b m1) as [[u1 m2]|] eqn:Hs; [|done].
    intros Hrest. apply load_extends in Hl. apply store_extends in Hs.
    apply IH in Hrest. eauto using extends_trans.
Qed.

Lemma memcpy_extends (dst src n : Z) (m : machine) (r : Z) (m' : machine) :
  memcpy dst src n m = Some (r, m') → extends m m'.
Proof.
  unfold memcpy. case_decide; [done|]. rewrite run_bind.
  destruct (memcpy_loop (Z.to_nat n) dst src 0 m) as [[u m1]|] eqn:Hl; [|done].
  intros [= _ <-]. by apply memcpy_loop_extends in Hl.
Qed.

Lemma new_events_extends (m m' : machine) (evs : list event) :
  trace m' = trace m ++ evs → new_events m m' = evs.
Proof. intros H. unfold new_events. by rewrite H, drop_app_length. Qed.

(** What a completed call has done after its length scan starts with the
    request to the allocator. *)
Lemma strndup_after_scan (m : machine) (str B n : Z) (m1 : machine)
    (ret : Z) (m' : machine) :
  strnlen str B m = Some (n, m1) →
  strndup str B m = Some (ret, m') →
  ∃ rest, trace m' = trace m1 ++ EvMalloc (size_add n 1) ret :: rest.
Proof.
  intros Hscan. unfold strndup. rewrite run_bind, Hscan, run_bind.
  unfold malloc at 1.
  destruct (alloc m1 (mem m1) (size_add n 1)) as [[p junk]|].
  - case_decide as Hp.
    + rewrite run_bind.
      match goal with |- context [memcpy p str n ?m2] =>
        destruct (memcpy p str n m2) as [[r m3]|] eqn:Hc; [|done] end.
      rewrite run_bind.
      destruct (store (p + n) NUL m3) as [[u m4]|] eqn:Hs; [|done].
      intros [= <- <-].
      apply memcpy_extends in Hc as [e1 Hc]. apply store_extends in Hs as [e2 Hs].
      exists (e1 ++ e2). rewrite Hs, Hc. simpl.
      by rewrite <- !app_assoc.
    + intros [= <- <-]. by exists [].
  - rewrite decide_False by (intros H; by apply H).
    intros [= <- <-]. by exists [].
Qed.

(** C5: the length scan of [strndup] looks at [B] bytes at most, all among
    the first [B] bytes of the input, and does nothing but read; this holds
    also when those bytes hold no terminator.  In a completed call, the
    reads of the scan are all that precedes the request to the allocator. *)
Theorem strndup_scan_bounded (m : machine) (str B : Z) (bs : list byte) :
  0 <= B → array_at (mem m) str bs → NUL ∈ bs ∨ B <= len bs →
  ∃ n m1,
    strnlen str B m = Some (n, m1) ∧
    mem m1 = mem m ∧
    new_events m m1 = EvRead <$> reads_of (new_events m m1) ∧
    Z.of_nat (length (reads_of (new_events m m1))) <= B ∧
    (∀ a, a ∈ reads_of (new_events m m1) → str <= a < str + B) ∧
    (∀ ret m',
       strndup str B m = Some (ret, m') →
       ∃ rest,
         new_events m m' =
           new_events m m1 ++ EvMalloc (size_add n 1) ret :: rest).
Proof.
  intros HB Harr Hterm.
  pose proof (run_strnlen str B m bs Harr Hterm) as Hrun.
  pose proof (scan_len_le (Z.to_nat B) bs) as Hle.
  eexists _, _. split; [exact Hrun|].
  rewrite new_events_after, reads_of_reads, length_seqZ.
  split_and!; [done | done | lia | |].
  - intros a. rewrite elem_of_seqZ. lia.
  - intros ret m' Hcall.
    destruct (strndup_after_scan _ _ _ _ _ _ _ Hrun Hcall) as [rest Hrest].
    exists rest. apply new_events_extends. rewrite Hrest. simpl trace.
    by rewrite <- app_assoc.
Qed.

(** Eight bytes, none of them zero, scanned with the bound 8. *)
Lemma strndup_scan_bounded_witness :
  ∃ n m1,
    strnlen 300 8 unterminated_machine = Some (n, m1) ∧
    mem m1 = mem unterminated_machine ∧
    new_events unterminated_machine m1 =
      EvRead <$> reads_of (new_events unterminated_machine m1) ∧
    Z.of_nat (length (reads_of (new_events unterminated_machine m1))) <= 8 ∧
    (∀ a, a ∈ reads_of (new_events unterminated_machine m1) →
          300 <= a < 300 + 8) ∧
    (∀ ret m',
       strndup 300 8 unterminated_machine = Some (ret, m') →
       ∃ rest,
         new_events unterminated_machine m' =
           new_events unterminated_machine m1 ++ EvMalloc (size_add n 1) ret :: rest).
Proof.
  apply (strndup_scan_bounded unterminated_machine 300 8 (replicate 8 x41)).
  - compute_done.
  - compute_done.
  - compute_done.
Defined.

(** ** Comparison with the platform primitive *)

Lemma initial_chars_cstring (size : nat) (h : heap) (p : Z) (s : list byte) :
  cstring_at h p s → initial_chars size h p = Some (take size s).
Proof.
  revert size p. induction s as [|b s IH]; intros size p [Hs Harr].
  - destruct size; [done|]. destruct Harr as [Hp _]. simpl. by rewrite Hp.
  - destruct size; [done|]. destruct Harr as [Hp Harr].
    apply not_elem_of_cons in Hs as [Hb Hs]. simpl. rewrite Hp.
    rewrite decide_False by done. by rewrite (IH size (p + 1)).
Qed.

Lemma copied_take (s : list byte) (B : Z) : copied s B = take (Z.to_nat B) s.
Proof.
  unfold copied, effective_length, len.
  destruct (decide (B <= Z.of_nat (length s))).
  - by rewrite Z.min_r.
  - rewrite Z.min_l by lia. rewrite !take_ge; [done | lia | lia].
Qed.

(** C8: on every zero-terminated input and every bound, the fallback and
    the platform primitive return the same pointer, null when the allocator
    refuses, and leave the same memory behind, so the same copy. *)
Theorem strndup_matches_platform (m : machine) (str B : Z) (s : list byte) :
  heap_wf (mem m) → allocator_sound (alloc m) →
  cstring_at (mem m) str s → is_size_t B →
  ∃ ret m' m'',
    strndup str B m = Some (ret, m') ∧
    platform_strndup str B m = Some (ret, m'') ∧
    mem m' = mem m'' ∧
    (ret = NULL ↔ alloc m (mem m) (Z.min (len s) B + 1) = None).
Proof.
  intros Hwf Hal Hstr HB.
  assert (Hplat : initial_chars (Z.to_nat B) (mem m) str = Some (copied s B)).
  { rewrite copied_take. by apply initial_chars_cstring. }
  destruct HB as [HB0 HB1]. pose proof (len_copied s B HB0) as Hlen.
  unfold platform_strndup. rewrite Hplat, Hlen.
  destruct (strndup_outcome m str B s Hwf Hal Hstr (conj HB0 HB1))
    as [[Ha Hrun]|(p & junk & Ha & Hp & _ & Hrun)];
    rewrite Ha; unfold effective_length in Ha; rewrite Ha.
  - eexists _, _, _. split; [exact Hrun|]. done.
  - eexists _, _, _. split; [exact Hrun|]. split; [done|]. split; [done|].
    split; [done | discriminate].
Qed.

Lemma strndup_matches_platform_witness :
  ∃ ret m' m'',
    strndup 100 5 demo_machine = Some (ret, m') ∧
    platform_strndup 100 5 demo_machine = Some (ret, m'') ∧
    mem m' = mem m'' ∧
    (ret = NULL ↔
     arena_allocator 4096 xaa demo_heap (Z.min (len hello_world) 5 + 1) = None).
Proof.
  apply (strndup_matches_platform demo_machine 100 5 hello_world).
  - compute_done.
  - apply arena_allocator_sound.
  - compute_done.
  - compute_done.
Defined.

(** ** Two calls compared *)

(** C9: two calls on the same string content with the same bound, from any
    two machines, return copies with identical bytes when both allocations
    succeed: neither the heap around the input, nor the allocator, nor the
    address or the initial bytes of the block have an influence. *)
Theorem strndup_deterministic (m1 m2 : machine) (str1 str2 B : Z)
    (s : list byte) :
  heap_wf (mem m1) → allocator_sound (alloc m1) → cstring_at (mem m1) str1 s →
  heap_wf (mem m2) → allocator_sound (alloc m2) → cstring_at (mem m2) str2 s →
  is_size_t B →
  ∃ ret1 m1' ret2 m2',
    strndup str1 B m1 = Some (ret1, m1') ∧
    strndup str2 B m2 = Some (ret2, m2') ∧
    (ret1 ≠ NULL → ret2 ≠ NULL →
     ∃ r,
       cstring_at (mem m1') ret1 r ∧ cstring_at (mem m2') ret2 r ∧
       ∀ i, 0 <= i <= len r → mem m1' !! (ret1 + i) = mem m2' !! (ret2 + i)).
Proof.
  intros Hwf1 Hal1 Hstr1 Hwf2 Hal2 Hstr2 HB.
  destruct (strndup_outcome m1 str1 B s Hwf1 Hal1 Hstr1 HB)
    as [[_ Hrun1]|(p1 & junk1 & _ & Hp1 & _ & Hrun1)];
  destruct (strndup_outcome m2 str2 B s Hwf2 Hal2 Hstr2 HB)
    as [[_ Hrun2]|(p2 & junk2 & _ & Hp2 & _ & Hrun2)];
    eexists _, _, _, _; (split; [exact Hrun1|]); (split; [exact Hrun2|]);
    try done.
  intros _ _. exists (copied s B). simpl mem.
  pose proof (cstring_at_copy (mem m1) p1 s B (proj1 Hstr1)) as Hc1.
  pose proof (cstring_at_copy (mem m2) p2 s B (proj1 Hstr2)) as Hc2.
  split_and!; [done | done |]. intros i Hi.
  pose proof (cstring_at_cells _ _ _ Hc1 i Hi) as [b Hb].
  destruct Hc1 as [_ Ha1], Hc2 as [_ Ha2].
  rewrite array_at_lookup in Ha1, Ha2.
  destruct (lookup_lt_is_Some_2 (copied s B ++ [NUL]) (Z.to_nat i)) as [c Hc].
  { rewrite length_app. unfold len in Hi. simpl. lia. }
  pose proof (Ha1 _ _ Hc) as H1. pose proof (Ha2 _ _ Hc) as H2.
  replace (Z.of_nat (Z.to_nat i)) with i in H1, H2 by lia.
  by rewrite H1, H2.
Qed.

Lemma strndup_deterministic_witness :
  ∃ ret1 m1' ret2 m2',
    strndup 100 5 demo_machine = Some (ret1, m1') ∧
    strndup 7 5 other_machine = Some (ret2, m2') ∧
    (ret1 ≠ NULL → ret2 ≠ NULL →
     ∃ r,
       cstring_at (mem m1') ret1 r ∧ cstring_at (mem m2') ret2 r ∧
       ∀ i, 0 <= i <= len r → mem m1' !! (ret1 + i) = mem m2' !! (ret2 + i)).
Proof.
  apply (strndup_deterministic demo_machine other_machine 100 7 5 hello_world).
  - compute_done.
  - apply arena_allocator_sound.
  - compute_done.
  - compute_done.
  - apply arena_allocator_sound.
  - compute_done.
  - compute_done.
Defined.

(** C10: the copy grows with the bound: for bounds [B1 <= B2], the content
    returned for [B1] is a prefix of the content returned for [B2], when
    both allocations succeed. *)
Theorem strndup_monotone (m1 m2 : machine) (str1 str2 B1 B2 : Z)
    (s : list byte) :
  heap_wf (mem m1) → allocator_sound (alloc m1) → cstring_at (mem m1) str1 s →
  heap_wf (mem m2) → allocator_sound (alloc m2) → cstring_at (mem m2) str2 s →
  is_size_t B1 → is_size_t B2 → B1 <= B2 →
  ∃ ret1 m1' ret2 m2',
    strndup str1 B1 m1 = Some (ret1, m1') ∧
    strndup str2 B2 m2 = Some (ret2, m2') ∧
    (ret1 ≠ NULL → ret2 ≠ NULL →
     ∃ r1 r2,
       cstring_at (mem m1') ret1 r1 ∧ cstring_at (mem m2') ret2 r2 ∧
       r1 `prefix_of` r2).
Proof.
  intros Hwf1 Hal1 Hstr1 Hwf2 Hal2 Hstr2 HB1 HB2 Hle.
  destruct (strndup_outcome m1 str1 B1 s Hwf1 Hal1 Hstr1 HB1)
    as [[_ Hrun1]|(p1 & junk1 & _ & Hp1 & _ & Hrun1)];
  destruct (strndup_outcome m2 str2 B2 s Hwf2 Hal2 Hstr2 HB2)
    as [[_ Hrun2]|(p2 & junk2 & _ & Hp2 & _ & Hrun2)];
    eexists _, _, _, _; (split; [exact Hrun1|]); (split; [exact Hrun2|]);
    try done.
  intros _ _. exists (copied s B1), (copied s B2). simpl mem.
  split_and!; [apply cstring_at_copy, Hstr1 | apply cstring_at_copy, Hstr2 |].
  rewrite !copied_take.
  replace (take (Z.to_nat B1) s)
    with (take (Z.to_nat B1) (take (Z.to_nat B2) s)).
  - apply prefix_take.
  - rewrite take_take. f_equal. destruct HB1. lia.
Qed.

Lemma strndup_monotone_witness :
  ∃ ret1 m1' ret2 m2',
    strndup 100 5 demo_machine = Some (ret1, m1') ∧
    strndup 100 8 demo_machine = Some (ret2, m2') ∧
    (ret1 ≠ NULL → ret2 ≠ NULL →
     ∃ r1 r2,
       cstring_at (mem m1') ret1 r1 ∧ cstring_at (mem m2') ret2 r2 ∧
       r1 `prefix_of` r2).
Proof.
  apply (strndup_monotone demo_machine demo_machine 100 100 5 8 hello_world).
  - compute_done.
  - apply arena_allocator_sound.
  - compute_done.
  - compute_done.
  - apply arena_allocator_sound.
  - compute_done.
  - compute_done.
  - compute_done.
  - compute_done.
Defined.

(** ** Concrete runs *)

(** ["hello world"] with bound 5: five bytes are scanned, six are asked
    for, five are copied and the terminator is written. *)
Example run_hello_world_5 :
  observe hello (strndup 100 5 demo_machine) =
    Some (4096, true,
          [EvRead 100; EvRead 101; EvRead 102; EvRead 103; EvRead 104;
           EvMalloc 6 4096;
           EvRead 100; EvWrite 4096 x68; EvRead 101; EvWrite 4097 x65;
           EvRead 102; EvWrite 4098 x6c; EvRead 103; EvWrite 4099 x6c;
           EvRead 104; EvWrite 4100 x6f;
           EvWrite 4101 NUL]).
Proof. vm_compute. reflexivity. Qed.

(** ["hi"] with bound 10: the scan stops at the terminator. *)
Example run_hi_10 :
  observe hi (strndup 200 10 demo_machine) =
    Some (4096, true,
          [EvRead 200; EvRead 201; EvRead 202;
           EvMalloc 3 4096;
           EvRead 200; EvWrite 4096 x68; EvRead 201; EvWrite 4097 x69;
           EvWrite 4098 NUL]).
Proof. vm_compute. reflexivity. Qed.

(** The same call when the allocator refuses: a null result and no write. *)
Example run_hi_10_starved :
  observe hi (strndup 200 10 starved_machine) =
    Some (NULL, false,
          [EvRead 200; EvRead 201; EvRead 202; EvMalloc 3 NULL]).
Proof. vm_compute. reflexivity. Qed.

(** Bound 0: nothing is read, one byte is asked for, the result is empty. *)
Example run_hello_world_0 :
  observe [] (strndup 100 0 demo_machine) =
    Some (4096, true, [EvMalloc 1 4096; EvWrite 4096 NUL]).
Proof. vm_compute. reflexivity. Qed.

(** The platform primitive on the first scenario. *)
Example run_platform_hello_world_5 :
  observe hello (platform_strndup 100 5 demo_machine) = Some (4096, true, []).
Proof. vm_compute. reflexivity. Qed.

(** A bound beyond the cells that hold the input, with no terminator in
    them: the scan leaves the allocated memory and the run is undefined. *)
Example run_unterminated_9 :
  observe [] (strndup 300 9 unterminated_machine) = None.
Proof. vm_compute. reflexivity. Qed.

(** * Further properties of [strndup] *)

(** ** The allocator that bumps *)

Lemma heap_top_above (h : heap) :
  1 <= heap_top h ∧ ∀ a b, h !! a = Some b → a < heap_top h.
Proof.
  unfold heap_top.
  apply (map_fold_weak_ind
           (fun top (h : heap) => 1 <= top ∧ ∀ a b, h !! a = Some b → a < top)).
  - split; [lia|]. intros a b H. by rewrite lookup_empty in H.
  - intros i x h' top Hi [Htop IH]. split; [lia|]. intros a b Ha.
    rewrite lookup_insert in Ha. case_decide as Hia.
    + subst a. lia.
    + specialize (IH a b Ha). lia.
Qed.

Lemma bump_allocator_sound (fill : byte) : allocator_sound (bump_allocator fill).
Proof.
  intros h n p junk H. unfold bump_allocator in H.
  case_decide as Hok; [|done]. destruct Hok as [Hn Hfit].
  injection H as <- <-. pose proof (heap_top_above h) as [Htop Habove].
  split_and!.
  - unfold NULL. lia.
  - rewrite length_replicate. lia.
  - intros i Hi. destruct (h !! (heap_top h + i)) as [b|] eqn:Hb; [|done].
    apply Habove in Hb. lia.
Qed.

Lemma bump_allocator_in_range (fill : byte) :
  allocator_in_range (bump_allocator fill).
Proof.
  intros h n p junk H. unfold bump_allocator in H.
  case_decide as Hok; [|done]. destruct Hok as [Hn Hfit].
  injection H as <- <-. pose proof (heap_top_above h) as [Htop _]. lia.
Qed.

(** ** A scan that runs off the allocated memory *)

Lemma strnlen_loop_runaway (fuel : nat) (s i : Z) (m : machine) (bs : list byte) :
  array_at (mem m) (s + i) bs → NUL ∉ bs →
  mem m !! (s + i + len bs) = None →
  (length bs < fuel)%nat →
  strnlen_loop fuel s i m = None.
Proof.
  revert fuel i m. induction bs as [|b bs IH]; intros fuel i m Harr Hnul Hend Hfuel.
  - destruct fuel; [simpl in Hfuel; lia|]. simpl. rewrite run_bind.
    unfold load. unfold len in Hend. simpl length in Hend.
    replace (s + i + Z.of_nat 0) with (s + i) in Hend by lia. by rewrite Hend.
  - destruct fuel; [simpl in Hfuel; lia|]. destruct Harr as [Hb Harr].
    apply not_elem_of_cons in Hnul as [Hne Hnul]. simpl.
    rewrite run_bind, (run_load _ _ _ Hb). rewrite decide_False by done.
    apply IH; simpl mem.
    + by replace (s + (i + 1)) with (s + i + 1) by lia.
    + done.
    + unfold len in *. simpl length in Hend.
      replace (s + (i + 1) + Z.of_nat (length bs))
        with (s + i + Z.of_nat (S (length bs))) by lia. done.
    + simpl in Hfuel. lia.
Qed.

(** X1: when the bytes at [str] hold no terminator and the cell behind them
    is not allocated, a bound larger than their number makes the length
    scan undefined, since it leaves the allocated memory, and with it the
    call, which yields no result. *)
Theorem strndup_runaway_scan (m : machine) (str B : Z) (bs : list byte) :
  array_at (mem m) str bs → NUL ∉ bs →
  mem m !! (str + len bs) = None →
  len bs < B →
  strnlen str B m = None ∧ strndup str B m = None.
Proof.
  intros Harr Hnul Hend HB.
  assert (Hscan : strnlen str B m = None).
  { unfold strnlen. apply (strnlen_loop_runaway _ str 0 m bs).
    - by replace (str + 0) with str by lia.
    - done.
    - by replace (str + 0) with str by lia.
    - unfold len in HB. lia. }
  split; [exact Hscan|]. unfold strndup. by rewrite run_bind, Hscan.
Qed.

Lemma strndup_runaway_scan_witness :
  strnlen 300 9 unterminated_machine = None ∧
  strndup 300 9 unterminated_machine = None.
Proof.
  apply (strndup_runaway_scan unterminated_machine 300 9 (replicate 8 x41)).
  - compute_done.
  - compute_done.
  - compute_done.
  - compute_done.
Defined.

(** ** The phases of a call *)

(** X2: a call proceeds in the order of the statements of the function.
    First come the events of the length scan, which are reads only; then
    the one request to the allocator.  If the request is refused, nothing
    follows.  Otherwise the copying follows, which asks for no memory,
    reads only bytes to be copied and writes only cells of the block below
    the place of the terminator; and the last event of all is the write of
    the terminator at offset [min (len s) B] of the block. *)
Theorem strndup_phases (m : machine) (str B : Z) (s : list byte) :
  heap_wf (mem m) → allocator_sound (alloc m) →
  cstring_at (mem m) str s → is_size_t B →
  ∃ ret m' scan copy,
    strndup str B m = Some (ret, m') ∧
    new_events m m' =
      scan ++
      EvMalloc (Z.min (len s) B + 1) ret ::
      (if decide (ret = NULL) then []
       else copy ++ [EvWrite (ret + Z.min (len s) B) NUL]) ∧
    scan = EvRead <$> reads_of scan ∧
    mallocs_of copy = [] ∧
    (∀ a, a ∈ reads_of copy → str <= a < str + Z.min (len s) B) ∧
    (∀ a, a ∈ writes_of copy → ret <= a < ret + Z.min (len s) B).
Proof.
  intros Hwf Hal Hstr HB.
  destruct (strndup_outcome m str B s Hwf Hal Hstr HB)
    as [[_ Hrun]|(p & junk & _ & Hp & _ & Hrun)].
  - exists NULL. eexists. exists (scan_events str s B), [].
    split; [exact Hrun|]. rewrite new_events_after.
    rewrite decide_True by done. unfold effective_length.
    split_and!; try done.
    + unfold scan_events. by rewrite reads_of_reads.
    + intros a Ha. by apply elem_of_nil in Ha.
    + intros a Ha. by apply elem_of_nil in Ha.
  - destruct HB as [HB0 _]. pose proof (len_copied s B HB0) as Hlen.
    exists p. eexists. exists (scan_events str s B), (copy_events p str (copied s B)).
    split; [exact Hrun|]. rewrite new_events_after.
    rewrite decide_False by done. unfold effective_length in *.
    split_and!.
    + done.
    + unfold scan_events. by rewrite reads_of_reads.
    + apply mallocs_of_copy.
    + intros a. rewrite reads_of_copy, elem_of_seqZ, Hlen. done.
    + intros a. rewrite writes_of_copy, elem_of_seqZ, Hlen. done.
Qed.

Lemma strndup_phases_witness :
  ∃ ret m' scan copy,
    strndup 100 5 demo_machine = Some (ret, m') ∧
    new_events demo_machine m' =
      scan ++
      EvMalloc 6 ret ::
      (if decide (ret = NULL) then [] else copy ++ [EvWrite (ret + 5) NUL]) ∧
    scan = EvRead <$> reads_of scan ∧
    mallocs_of copy = [] ∧
    (∀ a, a ∈ reads_of copy → 100 <= a < 100 + 5) ∧
    (∀ a, a ∈ writes_of copy → ret <= a < ret + 5).
Proof.
  apply (strndup_phases demo_machine 100 5 hello_world).
  - compute_done.
  - apply arena_allocator_sound.
  - compute_done.
  - compute_done.
Defined.

(** ** The copy is independent of the input *)

(** X3: the copy shares no cell with the input string, and it can be
    written to: overwriting any of its bytes succeeds and leaves the input
    string as it was. *)
Theorem strndup_copy_independent (m : machine) (str B : Z) (s : list byte) :
  heap_wf (mem m) → allocator_sound (alloc m) →
  cstring_at (mem m) str s → is_size_t B →
  ∃ ret m',
    strndup str B m = Some (ret, m') ∧
    (ret ≠ NULL →
     (∀ i j, 0 <= i <= Z.min (len s) B → 0 <= j <= len s →
             ret + i ≠ str + j) ∧
     (∀ i b, 0 <= i <= Z.min (len s) B →
             ∃ m'', store (ret + i) b m' = Some (tt, m'') ∧
                    cstring_at (mem m'') str s)).
Proof.
  intros Hwf Hal Hstr HB.
  pose proof (cstring_at_cells _ _ _ Hstr) as Hcells.
  destruct (strndup_outcome m str B s Hwf Hal Hstr HB)
    as [[_ Hrun]|(p & junk & _ & Hp & Hfresh & Hrun)].
  - eexists _, _. split; [exact Hrun | done].
  - destruct HB as [HB0 _]. pose proof (len_copied s B HB0) as Hlen.
    unfold effective_length in *.
    assert (Hdisj : ∀ i j, 0 <= i <= Z.min (len s) B → 0 <= j <= len s →
                           p + i ≠ str + j).
    { intros i j Hi Hj Heq. destruct (Hcells j Hj) as [b Hb].
      rewrite <- Heq, Hfresh in Hb; done. }
    eexists _, _. split; [exact Hrun|]. intros _. split; [exact Hdisj|].
    intros i b Hi. rewrite run_store; simpl mem.
    + eexists. split; [reflexivity|]. simpl mem.
      split; [apply Hstr|]. eapply array_at_agree; [|apply Hstr].
      intros a Ha. unfold len in Ha. rewrite length_app in Ha. simpl in Ha.
      rewrite lookup_insert_ne.
      * rewrite lookup_write_block. unfold len in *. rewrite length_app.
        simpl length. case_decide as Hin; [|done]. exfalso.
        apply (Hdisj (a - p) (a - str)); lia.
      * intros Heq. unfold len in *. apply (Hdisj i (a - str)); lia.
    + rewrite lookup_write_block. unfold len in *. rewrite length_app.
      simpl length. rewrite decide_True by lia. apply lookup_lt_is_Some.
      rewrite length_app. simpl. lia.
Qed.

Lemma strndup_copy_independent_witness :
  ∃ ret m',
    strndup 100 5 demo_machine = Some (ret, m') ∧
    (ret ≠ NULL →
     (∀ i j, 0 <= i <= Z.min (len hello_world) 5 → 0 <= j <= len hello_world →
             ret + i ≠ 100 + j) ∧
     (∀ i b, 0 <= i <= Z.min (len hello_world) 5 →
             ∃ m'', store (ret + i) b m' = Some (tt, m'') ∧
                    cstring_at (mem m'') 100 hello_world)).
Proof.
  apply (strndup_copy_independent demo_machine 100 5 hello_world).
  - compute_done.
  - apply arena_allocator_sound.
  - compute_done.
  - compute_done.
Defined.

(** ** Bounds beyond the length of the input *)

(** X4: two bounds that both exceed the length of the input give the very
    same run: the same pointer, the same memory and the same trace.  A
    bound that is large enough has no effect whatever. *)
Theorem strndup_large_bounds_agree (m : machine) (str B1 B2 : Z) (s : list byte) :
  heap_wf (mem m) → allocator_sound (alloc m) →
  cstring_at (mem m) str s → is_size_t B1 → is_size_t B2 →
  len s < B1 → len s < B2 →
  strndup str B1 m = strndup str B2 m ∧ strndup str B1 m ≠ None.
Proof.
  intros Hwf Hal Hstr HB1 HB2 Hlt1 Hlt2.
  assert (He : effective_length s B1 = effective_length s B2)
    by (unfold effective_length; lia).
  assert (Hc : copied s B1 = copied s B2) by (unfold copied; by rewrite He).
  assert (Hs : scan_events str s B1 = scan_events str s B2).
  { unfold scan_events. f_equal. f_equal. lia. }
  destruct (strndup_outcome m str B1 s Hwf Hal Hstr HB1)
    as [[Ha1 Hrun1]|(p1 & junk1 & Ha1 & _ & _ & Hrun1)];
  destruct (strndup_outcome m str B2 s Hwf Hal Hstr HB2)
    as [[Ha2 Hrun2]|(p2 & junk2 & Ha2 & _ & _ & Hrun2)];
    rewrite He in Ha1; rewrite Ha1 in Ha2; try done.
  - rewrite Hrun1, Hrun2, He, Hs. done.
  - injection Ha2 as <- <-. rewrite Hrun1, Hrun2.
    unfold strndup_events. rewrite He, Hs, Hc. done.
Qed.

Lemma strndup_large_bounds_agree_witness :
  strndup 200 3 demo_machine = strndup 200 10 demo_machine ∧
  strndup 200 3 demo_machine ≠ None.
Proof.
  apply (strndup_large_bounds_agree demo_machine 200 3 10 hi).
  - compute_done.
  - apply arena_allocator_sound.
  - compute_done.
  - compute_done.
  - compute_done.
  - compute_done.
  - compute_done.
Defined.

(** ** Input that is not a zero-terminated string *)

Lemma scan_len_le_length (fuel : nat) (bs : list byte) :
  (scan_len fuel bs ≤ length bs)%nat.
Proof.
  revert bs. induction fuel as [|fuel IH]; intros [|b bs]; simpl; try lia.
  case_decide; [lia|]. specialize (IH bs). lia.
Qed.

Lemma scan_examined_le (fuel : nat) (bs : list byte) :
  (scan_examined fuel bs ≤ S (scan_len fuel bs))%nat.
Proof.
  revert bs. induction fuel as [|fuel IH]; intros [|b bs]; simpl; try lia.
  case_decide; [lia|]. specialize (IH bs). lia.
Qed.

Lemma scan_len_no_NUL (fuel : nat) (bs : list byte) :
  NUL ∉ take (scan_len fuel bs) bs.
Proof.
  revert bs. induction fuel as [|fuel IH]; intros [|b bs]; simpl;
    try apply not_elem_of_nil.
  case_decide as Hb; simpl; [apply not_elem_of_nil|].
  apply not_elem_of_cons. split; [congruence | apply IH].
Qed.

Lemma scan_len_stop (fuel : nat) (bs : list byte) :
  NUL ∈ bs ∨ (fuel ≤ length bs)%nat →
  scan_len fuel bs = fuel ∨ bs !! scan_len fuel bs = Some NUL.
Proof.
  revert bs. induction fuel as [|fuel IH]; intros bs Hterm; [by left|].
  destruct bs as [|b bs].
  { destruct Hterm as [H|H]; [by apply elem_of_nil in H | simpl in H; lia]. }
  simpl. case_decide as Hb; [right; by subst b|].
  destruct (IH bs) as [H|H].
  - destruct Hterm as [H|H]; [|right; simpl in H; lia].
    apply elem_of_cons in H as [H|H]; [congruence | by left].
  - left. by rewrite H.
  - by right.
Qed.

Lemma array_at_take (h : heap) (p : Z) (bs : list byte) (k : nat) :
  array_at h p bs → array_at h p (take k bs).
Proof.
  intros Harr. rewrite <- (take_drop k bs) in Harr.
  by apply array_at_app in Harr as [Harr _].
Qed.

Lemma array_at_cells (h : heap) (p : Z) (bs : list byte) :
  array_at h p bs → ∀ j, 0 <= j < len bs → is_Some (h !! (p + j)).
Proof.
  intros Harr j Hj. rewrite array_at_lookup in Harr. unfold len in Hj.
  destruct (lookup_lt_is_Some_2 bs (Z.to_nat j)) as [b Hb]; [lia|].
  exists b. specialize (Harr _ _ Hb).
  by replace (p + Z.of_nat (Z.to_nat j)) with (p + j) in Harr by lia.
Qed.

Section array_call.
Context (m : machine) (str B : Z) (bs : list byte).
Hypothesis Hwf : heap_wf (mem m).
Hypothesis Hal : allocator_sound (alloc m).
Hypothesis Harr : array_at (mem m) str bs.
Hypothesis HB : is_size_t B.
Hypothesis Hterm : NUL ∈ bs ∨ (B <= len bs ∧ B < SIZE_MAX).

Lemma array_scan_range :
  0 <= Z.of_nat (scan_len (Z.to_nat B) bs) <= B ∧
  Z.of_nat (scan_len (Z.to_nat B) bs) <= len bs ∧
  Z.of_nat (scan_len (Z.to_nat B) bs) + 1 < SIZE_MODULUS.
Proof.
  pose proof (scan_len_le (Z.to_nat B) bs) as Hle.
  pose proof (scan_len_le_length (Z.to_nat B) bs) as Hlen.
  pose proof (scan_len_no_NUL (Z.to_nat B) bs) as Hno.
  destruct HB as [HB0 HB1]. unfold len, SIZE_MAX in *.
  split_and!; [lia | lia | lia |].
  destruct Hterm as [Hin|[_ Hlt]]; [|lia].
  assert (Hk : (scan_len (Z.to_nat B) bs < length bs)%nat).
  { destruct (decide (scan_len (Z.to_nat B) bs < length bs)%nat); [done|].
    rewrite take_ge in Hno by lia. done. }
  destruct (array_at_cells _ _ _ Harr 0) as [b0 H0]; [unfold len; lia|].
  destruct (array_at_cells _ _ _ Harr (len bs - 1)) as [b1 H1];
    [unfold len; lia|].
  apply Hwf in H0, H1. unfold len in *. lia.
Qed.

Lemma run_strndup_array :
  strndup str B m =
    match alloc m (mem m) (Z.of_nat (scan_len (Z.to_nat B) bs) + 1) with
    | None =>
        Some (NULL,
              after (mem m)
                ((EvRead <$>
                    seqZ str (Z.of_nat (scan_examined (Z.to_nat B) bs))) ++
                 [EvMalloc (Z.of_nat (scan_len (Z.to_nat B) bs) + 1) NULL]) m)
    | Some (p, _) =>
        Some (p,
              after (write_block p
                       (take (scan_len (Z.to_nat B) bs) bs ++ [NUL]) (mem m))
                ((EvRead <$>
                    seqZ str (Z.of_nat (scan_examined (Z.to_nat B) bs))) ++
                 [EvMalloc (Z.of_nat (scan_len (Z.to_nat B) bs) + 1) p] ++
                 copy_events p str (take (scan_len (Z.to_nat B) bs) bs) ++
                 [EvWrite (p + Z.of_nat (scan_len (Z.to_nat B) bs)) NUL]) m)
    end.
Proof.
  pose proof array_scan_range as (Hk0 & Hklen & Hkmod).
  set (k := scan_len (Z.to_nat B) bs) in *.
  assert (Hscan : strnlen str B m =
            Some (Z.of_nat k,
                  after (mem m)
                    (EvRead <$>
                       seqZ str (Z.of_nat (scan_examined (Z.to_nat B) bs))) m)).
  { apply run_strnlen; [done|]. destruct Hterm as [H|[H _]]; [by left | by right]. }
  assert (Hsize : size_add (Z.of_nat k) 1 = Z.of_nat k + 1).
  { unfold size_add. apply Z.mod_small. lia. }
  assert (Hlen : len (take k bs) = Z.of_nat k).
  { unfold len in *. rewrite length_take. lia. }
  unfold strndup. rewrite run_bind, Hscan, run_bind, Hsize.
  destruct (alloc m (mem m) (Z.of_nat k + 1)) as [[p junk]|] eqn:Ha.
  - destruct (Hal _ _ _ _ Ha) as (Hp & Hjunk & Hfresh).
    pose proof (array_at_cells _ _ _ Harr) as Hcells.
    rewrite (run_malloc_ok _ p junk) by done. simpl mem.
    rewrite decide_True by done.
    rewrite run_bind, (run_memcpy p str (Z.of_nat k) _ (take k bs)); simpl mem.
    + rewrite run_bind, run_store; simpl mem.
      * unfold cret. rewrite !after_after. do 2 f_equal.
        unfold after. f_equal. apply map_eq. intros a.
        rewrite lookup_insert, !lookup_write_block.
        unfold len in *. rewrite length_app. simpl length.
        repeat case_decide; try lia; try done.
        -- subst a.
           replace (Z.to_nat (p + Z.of_nat k - p)) with (length (take k bs)) by lia.
           by rewrite list_lookup_middle.
        -- rewrite lookup_app_l by lia. done.
      * rewrite !lookup_write_block. rewrite Hlen. unfold len.
        rewrite decide_False by lia. rewrite decide_True by lia.
        apply lookup_lt_is_Some. lia.
    + done.
    + eapply array_at_agree; [|by apply array_at_take].
      intros a Ha'. rewrite Hlen in Ha'.
      rewrite lookup_write_block. case_decide as Hin; [|done].
      exfalso. destruct (Hcells (a - str)) as [b Hb]; [lia|].
      replace (str + (a - str)) with a in Hb by lia.
      unfold len in Hin.
      assert (Hf : mem m !! (p + (a - p)) = None) by (apply Hfresh; lia).
      replace (p + (a - p)) with a in Hf by lia. congruence.
    + intros j Hj. rewrite lookup_write_block. unfold len.
      rewrite decide_True by lia. apply lookup_lt_is_Some. lia.
    + intros (Hpos & H1 & H2).
      destruct (Hcells (Z.max p str - str)) as [b Hb]; [lia|].
      assert (Hf : mem m !! (p + (Z.max p str - p)) = None)
        by (apply Hfresh; lia).
      replace (str + (Z.max p str - str)) with (Z.max p str) in Hb by lia.
      replace (p + (Z.max p str - p)) with (Z.max p str) in Hf by lia.
      congruence.
  - rewrite run_malloc_fail by done.
    rewrite decide_False by (intros H; by apply H).
    simpl. unfold cret. by rewrite after_after.
Qed.
End array_call.

(** X5: the input need not be a zero-terminated string.  On any bytes [bs]
    at [str] that hold a terminator or are at least [B] long, the call
    returns; the copy holds the [k] leading bytes of [bs], where [k] is the
    place of the first terminator or the bound, whichever comes first.
    Bytes behind the first terminator are neither copied nor read. *)
Theorem strndup_on_byte_arrays (m : machine) (str B : Z) (bs : list byte) :
  heap_wf (mem m) → allocator_sound (alloc m) →
  array_at (mem m) str bs → is_size_t B →
  NUL ∈ bs ∨ (B <= len bs ∧ B < SIZE_MAX) →
  ∃ ret m' k,
    strndup str B m = Some (ret, m') ∧
    0 <= k <= B ∧ k <= len bs ∧
    (NUL ∉ take (Z.to_nat k) bs) ∧
    (k = B ∨ bs !! Z.to_nat k = Some NUL) ∧
    (ret = NULL ↔ alloc m (mem m) (k + 1) = None) ∧
    (ret ≠ NULL → cstring_at (mem m') ret (take (Z.to_nat k) bs)) ∧
    (∀ a, a ∈ reads_of (new_events m m') →
          str <= a <= str + k ∧ a < str + B).
Proof.
  intros Hwf Hal Harr HB Hterm.
  pose proof (run_strndup_array m str B bs Hwf Hal Harr HB Hterm) as Hrun.
  pose proof (array_scan_range m str B bs Hwf Harr HB Hterm) as (Hk & Hklen & _).
  pose proof (scan_len_no_NUL (Z.to_nat B) bs) as Hno.
  pose proof (scan_examined_le (Z.to_nat B) bs) as Hex.
  pose proof (scan_len_le (Z.to_nat B) bs) as Hle.
  assert (Hstop : Z.of_nat (scan_len (Z.to_nat B) bs) = B ∨
                  bs !! scan_len (Z.to_nat B) bs = Some NUL).
  { destruct (scan_len_stop (Z.to_nat B) bs) as [H|H].
    - destruct Hterm as [H|[H _]]; [by left | right; unfold len in H; lia].
    - left. destruct HB. lia.
    - by right. }
  set (k := scan_len (Z.to_nat B) bs) in *.
  assert (Hscan : ∀ a, a ∈ seqZ str (Z.of_nat (scan_examined (Z.to_nat B) bs)) →
                       str <= a <= str + Z.of_nat k ∧ a < str + B).
  { intros a. rewrite elem_of_seqZ. lia. }
  destruct (alloc m (mem m) (Z.of_nat k + 1)) as [[p junk]|] eqn:Ha.
  - destruct (Hal _ _ _ _ Ha) as (Hp & _ & _).
    exists p. eexists. exists (Z.of_nat k). rewrite Nat2Z.id.
    split; [exact Hrun|]. rewrite new_events_after. simpl mem.
    split_and!; try done; try lia.
    + rewrite Ha. split; [done | discriminate].
    + intros _. split; [exact Hno | apply array_at_write_block].
    + intros a. rewrite !reads_of_app, reads_of_reads, reads_of_copy. simpl.
      rewrite app_nil_r, elem_of_app, !elem_of_seqZ.
      unfold len. rewrite length_take. lia.
  - exists NULL. eexists. exists (Z.of_nat k). rewrite Nat2Z.id.
    split; [exact Hrun|]. rewrite new_events_after, Ha.
    split_and!; try done; try lia.
    intros a. rewrite reads_of_app, reads_of_reads, app_nil_r. apply Hscan.
Qed.

(** Five bytes with a terminator in third place, and the bound 4: the copy
    is the two bytes before the terminator. *)
Lemma strndup_on_byte_arrays_witness :
  ∃ ret m' k,
    strndup 500 4 embedded_machine = Some (ret, m') ∧
    0 <= k <= 4 ∧ k <= len [x61; x62; NUL; x63; x64] ∧
    (NUL ∉ take (Z.to_nat k) [x61; x62; NUL; x63; x64]) ∧
    (k = 4 ∨ [x61; x62; NUL; x63; x64] !! Z.to_nat k = Some NUL) ∧
    (ret = NULL ↔ alloc embedded_machine (mem embedded_machine) (k + 1) = None) ∧
    (ret ≠ NULL →
     cstring_at (mem m') ret (take (Z.to_nat k) [x61; x62; NUL; x63; x64])) ∧
    (∀ a, a ∈ reads_of (new_events embedded_machine m') →
          500 <= a <= 500 + k ∧ a < 500 + 4).
Proof.
  apply (strndup_on_byte_arrays embedded_machine 500 4 [x61; x62; NUL; x63; x64]).
  - compute_done.
  - apply bump_allocator_sound.
  - compute_done.
  - compute_done.
  - compute_done.
Defined.

(** ** Duplicating a duplicate *)

Lemma heap_wf_write_block (h : heap) (p : Z) (bs : list byte) :
  heap_wf h → 0 < p → p + len bs <= SIZE_MODULUS →
  heap_wf (write_block p bs h).
Proof.
  intros Hwf Hp Hfit a b. rewrite lookup_write_block. case_decide as Hin.
  - intros _. lia.
  - apply Hwf.
Qed.

Lemma cstring_at_write_block_fresh (h : heap) (p q : Z) (bs t : list byte) :
  (∀ i, 0 <= i < len bs → h !! (p + i) = None) →
  cstring_at h q t → cstring_at (write_block p bs h) q t.
Proof.
  intros Hfresh Hstr. pose proof (cstring_at_cells _ _ _ Hstr) as Hcells.
  split; [apply Hstr|]. eapply array_at_agree; [|apply Hstr].
  intros a Ha. unfold len in Ha. rewrite length_app in Ha. simpl in Ha.
  rewrite lookup_write_block. case_decide as Hin; [|done]. exfalso.
  destruct (Hcells (a - q)) as [b Hb]; [unfold len; lia|].
  replace (q + (a - q)) with a in Hb by lia.
  specialize (Hfresh (a - p)). replace (p + (a - p)) with a in Hfresh by lia.
  rewrite Hfresh in Hb; [done | lia].
Qed.

(** X6: calls compose.  With an allocator that respects the address space,
    the copy returned by one call is a valid input to the next; the second
    copy lies in a block of its own and holds the first [min B1 B2] bytes
    of the original string, so duplicating a copy with the same bound
    reproduces it.  The first copy and the original are left intact. *)
Theorem strndup_twice (m : machine) (str B1 B2 : Z) (s : list byte) :
  heap_wf (mem m) → allocator_sound (alloc m) → allocator_in_range (alloc m) →
  cstring_at (mem m) str s → is_size_t B1 → is_size_t B2 →
  ∃ ret1 m1,
    strndup str B1 m = Some (ret1, m1) ∧
    (ret1 ≠ NULL →
     ∃ ret2 m2,
       strndup ret1 B2 m1 = Some (ret2, m2) ∧
       (ret2 ≠ NULL →
        ret2 ≠ ret1 ∧
        cstring_at (mem m2) ret2 (take (Z.to_nat (Z.min B1 B2)) s) ∧
        cstring_at (mem m2) ret1 (take (Z.to_nat B1) s) ∧
        cstring_at (mem m2) str s)).
Proof.
  intros Hwf Hal Hrange Hstr HB1 HB2.
  destruct (strndup_outcome m str B1 s Hwf Hal Hstr HB1)
    as [[_ Hrun1]|(p1 & junk1 & Ha1 & Hp1 & Hfresh1 & Hrun1)].
  { eexists _, _. split; [exact Hrun1 | done]. }
  eexists _, _. split; [exact Hrun1|]. intros _.
  pose proof (len_copied s B1 (proj1 HB1)) as Hlen1.
  set (h1 := write_block p1 (copied s B1 ++ [NUL]) (mem m)).
  set (m1 := after h1 (strndup_events str s B1 p1) m).
  assert (Hcopy1 : cstring_at h1 p1 (copied s B1))
    by apply cstring_at_copy, Hstr.
  assert (Hstr1 : cstring_at h1 str s).
  { apply cstring_at_write_block_fresh; [|done]. intros i Hi.
    unfold len in *. rewrite length_app in Hi. simpl in Hi.
    apply Hfresh1. lia. }
  assert (Hwf1 : heap_wf h1).
  { destruct (Hrange _ _ _ _ Ha1) as [Hpos Hfit].
    apply heap_wf_write_block; [done | done |].
    unfold len in *. rewrite length_app. simpl length. lia. }
  destruct (strndup_outcome m1 p1 B2 (copied s B1) Hwf1 Hal Hcopy1 HB2)
    as [[_ Hrun2]|(p2 & junk2 & _ & Hp2 & Hfresh2 & Hrun2)].
  { eexists _, _. split; [exact Hrun2 | done]. }
  eexists _, _. split; [exact Hrun2|]. intros _. simpl mem in *.
  assert (Hfresh2' : ∀ i, 0 <= i < len (copied (copied s B1) B2 ++ [NUL]) →
                          h1 !! (p2 + i) = None).
  { intros i Hi. apply Hfresh2.
    pose proof (len_copied (copied s B1) B2 (proj1 HB2)) as Hlen2.
    unfold len in *. rewrite length_app in Hi. simpl in Hi. lia. }
  split_and!.
  - intros ->. destruct (cstring_at_cells _ _ _ Hcopy1 0) as [b Hb];
      [unfold len; lia|].
    rewrite (Hfresh2 0) in Hb; [done|].
    pose proof (len_copied (copied s B1) B2 (proj1 HB2)). unfold len in *. lia.
  - replace (take (Z.to_nat (Z.min B1 B2)) s) with (copied (copied s B1) B2).
    + apply cstring_at_copy, Hcopy1.
    + rewrite !copied_take, take_take. f_equal. destruct HB1, HB2. lia.
  - rewrite <- copied_take. by apply cstring_at_write_block_fresh.
  - by apply cstring_at_write_block_fresh.
Qed.

Lemma strndup_twice_witness :
  ∃ ret1 m1,
    strndup 100 5 bump_machine = Some (ret1, m1) ∧
    (ret1 ≠ NULL →
     ∃ ret2 m2,
       strndup ret1 3 m1 = Some (ret2, m2) ∧
       (ret2 ≠ NULL →
        ret2 ≠ ret1 ∧
        cstring_at (mem m2) ret2 (take (Z.to_nat (Z.min 5 3)) hello_world) ∧
        cstring_at (mem m2) ret1 (take (Z.to_nat 5) hello_world) ∧
        cstring_at (mem m2) 100 hello_world)).
Proof.
  apply (strndup_twice bump_machine 100 5 3 hello_world).
  - compute_done.
  - apply bump_allocator_sound.
  - apply bump_allocator_in_range.
  - compute_done.
  - compute_done.
  - compute_done.
Defined.

(** The two calls of the last witness, run: ["hello"] is placed right above
    the two strings of the heap, and ["hel"] right above ["hello"]. *)
Example run_twice :
  observe [x68; x65; x6c]
    (match strndup 100 5 bump_machine with
     | Some (ret1, m1) => strndup ret1 3 m1
     | None => None
     end) =
    Some (209, true,
          [EvRead 100; EvRead 101; EvRead 102; EvRead 103; EvRead 104;
           EvMalloc 6 203;
           EvRead 100; EvWrite 203 x68; EvRead 101; EvWrite 204 x65;
           EvRead 102; EvWrite 205 x6c; EvRead 103; EvWrite 206 x6c;
           EvRead 104; EvWrite 207 x6f;
           EvWrite 208 NUL;
           EvRead 203; EvRead 204; EvRead 205;
           EvMalloc 4 209;
           EvRead 203; EvWrite 209 x68; EvRead 204; EvWrite 210 x65;
           EvRead 205; EvWrite 211 x6c;
           EvWrite 212 NUL]).
Proof. vm_compute. reflexivity. Qed.

(** Bytes with a terminator in their midst: the copy stops there. *)
Example run_embedded_4 :
  observe [x61; x62] (strndup 500 4 embedded_machine) =
    Some (505, true,
          [EvRead 500; EvRead 501; EvRead 502;
           EvMalloc 3 505;
           EvRead 500; EvWrite 505 x61; EvRead 501; EvWrite 506 x62;
           EvWrite 507 NUL]).
Proof. vm_compute. reflexivity. Qed.
